(** * simupy.matrices: a shallow embedding and its verified properties

    The module under study (src/simupy/matrices.py) builds symbolic
    matrices, flattens matrix substitutions, assembles block matrices,
    rebuilds matrix trajectories from vector trajectories and converts a
    matrix differential equation to vector form.

    Python exceptions are values of [exn] carried by the [result] monad;
    sympy matrices are records holding a shape and the row-major list of
    entries, as sympy's dense matrices do. *)

From stdpp Require Import base decidable option list numbers strings pretty.

#[local] Set Warnings "-clear-no-such-hyp".

Local Open Scope string_scope.
Local Open Scope list_scope.
Local Open Scope nat_scope.

(** ** Python exceptions and the error monad *)

(** The [ValueError]s the module can meet, told apart by their origin. *)
Inductive value_error : Type :=
  | CannotMakeSymmetricOrDiagonal (* raise ValueError("Cannot make symmetric or diagonal if n != m") *)
  | MissingSymbol                 (* sp.symbols: missing symbol between commas *)
  | NotInList                     (* list.index(x): x is not in list *)
  | ZeroSizedOperands             (* np.nditer: iteration of zero-sized operands is not enabled *)
  | CouldNotBroadcast.            (* numpy assignment of an array into a slot of another shape *)

Inductive exn : Type :=
  | ValueError (why : value_error)
  | IndexError       (* subscript out of range *)
  | KeyError         (* key absent from a dict *)
  | TypeError        (* wrong number of positional arguments, len() of a scalar *)
  | AttributeError   (* attribute (.shape) absent from the object *)
  | ShapeError.      (* sympy: joined matrices with different row or column counts *)

Inductive result (A : Type) : Type :=
  | Ok (a : A)
  | Raise (e : exn).
Arguments Ok {A} a.
Arguments Raise {A} e.

#[global] Instance value_error_eq_dec : EqDecision value_error.
Proof. solve_decision. Defined.
#[global] Instance exn_eq_dec : EqDecision exn.
Proof. solve_decision. Defined.

#[global] Instance result_ret : MRet result := λ A a, Ok a.
#[global] Instance result_bind : MBind result := λ A B f r,
  match r with
  | Ok a => f a
  | Raise e => Raise e
  end.

(** A [for] loop whose body may raise: the state is threaded through the
    items in order and the first exception ends the loop. *)
Fixpoint for_each {X S : Type} (items : list X) (body : X → S → result S)
    (s : S) : result S :=
  match items with
  | [] => Ok s
  | x :: rest => s' ← body x s; for_each rest body s'
  end.

(** A generator expression whose element may raise: the pieces produced for
    the items are concatenated in order. *)
Fixpoint collect {X Y : Type} (items : list X) (piece : X → result (list Y))
    : result (list Y) :=
  match items with
  | [] => Ok []
  | x :: rest => ys ← piece x; zs ← collect rest piece; Ok (ys ++ zs)
  end.

(** [range(lo, hi)] *)
Definition range (lo hi : nat) : list nat := seq lo (hi - lo).

(** [l.index(x)]: the first position holding a value equal to [x]. *)
Fixpoint list_index {A : Type} `{EqDecision A} (x : A) (l : list A) : option nat :=
  match l with
  | [] => None
  | y :: rest => if decide (y = x) then Some 0 else S <$> list_index x rest
  end.

Definition index {A : Type} `{EqDecision A} (l : list A) (x : A) : result nat :=
  match list_index x l with
  | Some k => Ok k
  | None => Raise (ValueError NotInList)
  end.

(** ** Symbolic expressions of the algebra engine *)

(** Keyword arguments handed on to the symbol constructor (assumptions such
    as [real=True]). *)
Definition kwargs : Type := list (string * bool).

(** The part of sympy's expression language the module handles: numbers,
    plain symbols, time-dependent symbols ([dynamicsymbols], an undefined
    function applied to t) and sums and products of these. Equality is
    structural, as sympy's [==]. *)
Inductive expr : Type :=
  | Integer (z : Z)
  | Symbol (name : string) (assumptions : kwargs)
  | AppliedUndef (name : string) (assumptions : kwargs)
  | Add (a b : expr)
  | Mul (a b : expr).

#[global] Instance expr_eq_dec : EqDecision expr.
Proof. solve_decision. Defined.

#[global] Instance expr_inhabited : Inhabited expr := populate (Integer 0).

(** *** The symbol functions

    [sp.symbols] parses its first argument: commas and white space separate
    several names, a colon makes a range of names, a backslash escapes one
    of these characters; only a string free of them denotes one symbol. *)

(** White space for [str.strip] and [str.split], among the ASCII
    characters: tab, line feed, vertical tab, form feed, carriage return,
    the separators 28 to 31 and the blank. *)
Definition is_whitespace (c : Ascii.ascii) : bool :=
  bool_decide (Ascii.nat_of_ascii c ∈ [9; 10; 11; 12; 13; 28; 29; 30; 31; 32]).

(** A character with a meaning for the parser: white space, the comma
    (44), the colon (58), the backslash (92). The characters beyond ASCII
    are kept on this side as well: the model says nothing about them. *)
Definition special_char (c : Ascii.ascii) : bool :=
  is_whitespace c || bool_decide (Ascii.nat_of_ascii c ∈ [44; 58; 92])
  || bool_decide (128 ≤ Ascii.nat_of_ascii c).

(** A string that the parser reads as the name of one symbol. *)
Fixpoint one_symbol_name (s : string) : bool :=
  match s with
  | EmptyString => true
  | String c s => negb (special_char c) && one_symbol_name s
  end.

(** The assumptions sympy knows for a symbol. *)
Definition assumption_names : list string :=
  ["commutative"; "complex"; "real"; "imaginary"; "rational"; "integer";
   "even"; "odd"; "prime"; "finite"; "zero"; "nonzero"; "positive";
   "negative"; "nonnegative"; "nonpositive"].

(** Keyword arguments that only qualify the symbol: none, or one
    assumption. The keywords [seq] and [cls] of [sp.symbols] and [level] of
    [dynamicsymbols] change what is returned, and several assumptions may
    contradict each other; these are outside the model. *)
Definition assumptions_only (kw : kwargs) : bool :=
  match kw with
  | [] => true
  | [(key, _)] => bool_decide (key ∈ assumption_names)
  | _ => false
  end.

(** A string that starts with a comma. *)
Definition starts_with_comma (s : string) : bool :=
  match s with
  | String c _ => bool_decide (Ascii.nat_of_ascii c = 44)
  | EmptyString => false
  end.

(** A string whose last character has no meaning for the parser. *)
Fixpoint ends_plain (s : string) : bool :=
  match s with
  | EmptyString => false
  | String c EmptyString => negb (special_char c)
  | String _ rest => ends_plain rest
  end.

(** The part of a string before its first comma, and the part after it. *)
Fixpoint split_at_comma (s : string) : option (string * string) :=
  match s with
  | EmptyString => None
  | String c rest =>
      if bool_decide (Ascii.nat_of_ascii c = 44) then Some (EmptyString, rest)
      else (λ pq : string * string, (String c pq.1, pq.2)) <$> split_at_comma rest
  end.

(** A string that starts with a digit. *)
Definition starts_with_digit (s : string) : bool :=
  match s with
  | String c _ => bool_decide (48 ≤ Ascii.nat_of_ascii c ≤ 57)
  | EmptyString => false
  end.

(** A blank and the range [:0], followed by characters without meaning for
    the parser that do not start with a digit: the range from 0 to 0 holds
    no name, and the parser drops the whole piece. *)
Definition empty_range (s : string) : bool :=
  match s with
  | String c1 (String c2 (String c3 rest)) =>
      bool_decide (Ascii.nat_of_ascii c1 = 32) && bool_decide (Ascii.nat_of_ascii c2 = 58)
      && bool_decide (Ascii.nat_of_ascii c3 = 48)
      && one_symbol_name rest && negb (starts_with_digit rest)
  | _ => false
  end.

(** What a call of a symbol function gives, [make] building the symbol:
    the symbol for a string with a character that is the name of one
    symbol; the ValueError [missing symbol between commas] for a string
    that starts with a comma and ends with a character without meaning for
    the parser (the strings of the builder end with a digit); for the name
    of one symbol followed by a comma and an empty range, the symbol of
    this name alone; and [None], a result outside the model (a tuple of
    symbols, another symbol, another exception), otherwise. *)
Definition symbol_function (make : string → kwargs → expr) (name : string)
    (kw : kwargs) : option (result expr) :=
  if negb (assumptions_only kw) || bool_decide (name = EmptyString) then None
  else if one_symbol_name name then Some (Ok (make name kw))
  else if starts_with_comma name && ends_plain name
  then Some (Raise (ValueError MissingSymbol))
  else
    match split_at_comma name with
    | Some (first, rest) =>
        if one_symbol_name first && empty_range rest
        then Some (Ok (make first kw)) else None
    | None => None
    end.

(** [sp.symbols(name, **kw)] *)
Definition symbols : string → kwargs → option (result expr) :=
  symbol_function Symbol.

(** [dynamicsymbols(name, **kw)]: the undefined function of that name,
    applied to the time. *)
Definition dynamicsymbols : string → kwargs → option (result expr) :=
  symbol_function AppliedUndef.

(** A list comprehension over calls that may raise or leave the model:
    the first exception ends it; without an exception, one call outside
    the model puts the list outside the model. *)
Fixpoint comprehension {X Y : Type} (f : X → option (result Y)) (items : list X)
    : option (result (list Y)) :=
  match items with
  | [] => Some (Ok [])
  | x :: rest =>
      match f x with
      | Some (Raise e) => Some (Raise e)
      | Some (Ok y) =>
          match comprehension f rest with
          | Some (Ok ys) => Some (Ok (y :: ys))
          | other => other
          end
      | None =>
          match comprehension f rest with
          | Some (Raise e) => Some (Raise e)
          | _ => None
          end
      end
  end.

(** [e != 0] *)
Definition nonzero (e : expr) : bool := bool_decide (e ≠ Integer 0).

(** [e.subs(old, new)]: every occurrence of [old] in [e] becomes [new]. *)
Fixpoint subs1 (old new e : expr) : expr :=
  if decide (e = old) then new
  else match e with
       | Add a b => Add (subs1 old new a) (subs1 old new b)
       | Mul a b => Mul (subs1 old new a) (subs1 old new b)
       | _ => e
       end.

(** [e.subs(pairs)] for a sequence of pairs: the replacements are made one
    after the other, in the order of the sequence. *)
Definition subs (pairs : list (expr * expr)) (e : expr) : expr :=
  foldl (λ acc p, subs1 p.1 p.2 acc) e pairs.

(** ** Matrices *)

(** A dense matrix: its shape and its entries in row-major order. The
    engine keeps [length mat = rows * cols]. *)
Record Matrix (A : Type) : Type := mk_matrix {
  rows : nat;
  cols : nat;
  mat : list A
}.
Arguments mk_matrix {A} rows cols mat.
Arguments rows {A} _.
Arguments cols {A} _.
Arguments mat {A} _.

Section matrix.
Context {A : Type} `{Inhabited A}.

Definition shape (M : Matrix A) : nat * nat := (rows M, cols M).

(** The entry at row [i], column [j] of a matrix whose shape holds it. *)
Definition entry (M : Matrix A) (i j : nat) : A := mat M !!! (i * cols M + j).

(** [M[i, j]] *)
Definition getitem (M : Matrix A) (i j : nat) : result A :=
  if bool_decide (i < rows M ∧ j < cols M) then Ok (entry M i j)
  else Raise IndexError.

(** [M[i, j] = v] *)
Definition setitem (M : Matrix A) (i j : nat) (v : A) : result (Matrix A) :=
  if bool_decide (i < rows M ∧ j < cols M)
  then Ok (mk_matrix (rows M) (cols M) (<[i * cols M + j := v]> (mat M)))
  else Raise IndexError.

(** [M[k] = v] with one flat index. *)
Definition setitem_flat (M : Matrix A) (k : nat) (v : A) : result (Matrix A) :=
  if bool_decide (k < rows M * cols M)
  then Ok (mk_matrix (rows M) (cols M) (<[k := v]> (mat M)))
  else Raise IndexError.

(** [M.tolist()]: the list of the rows. *)
Definition tolist (M : Matrix A) : list (list A) :=
  (λ i, entry M i <$> seq 0 (cols M)) <$> seq 0 (rows M).

(** [sp.flatten] of a list of rows. *)
Definition flatten (ls : list (list A)) : list A := mjoin ls.

(** [sp.Matrix(rows)] from a list of rows of one length: rows without
    element give the matrix without rows and columns. *)
Definition Matrix_of_rows (ls : list (list A)) : Matrix A :=
  let cols := from_option length 0 (head ls) in
  mk_matrix (if decide (cols = 0) then 0 else length ls) cols (mjoin ls).

(** [sp.Matrix(l)] from a flat list: a column, and the empty matrix for
    the empty list. *)
Definition Matrix_of_list (l : list A) : Matrix A :=
  mk_matrix (length l) (if l is [] then 0 else 1) l.

(** The cells of an [r] by [c] array, row after row. *)
Definition cells (r c : nat) : list (nat * nat) :=
  i ← seq 0 r; (λ j, (i, j)) <$> seq 0 c.

(** [np.nditer(M, flags=['multi_index', 'refs_ok'])]: the multi-indices
    in row-major order. Without the [zerosize_ok] flag numpy refuses an
    operand that has no element. *)
Definition nditer (M : Matrix A) : result (list (nat * nat)) :=
  if bool_decide (rows M * cols M = 0) then Raise (ValueError ZeroSizedOperands)
  else Ok (cells (rows M) (cols M)).
End matrix.

(** [zeros(r, c)] *)
Definition zeros {A : Type} (zero : A) (r c : nat) : Matrix A :=
  mk_matrix r c (replicate (r * c) zero).

(** [sp.diag] applied to scalar values: they fill the diagonal of a
    square matrix and every other entry is zero. *)
Definition diag (values : list expr) : Matrix expr :=
  let n := length values in
  mk_matrix n n
    (i ← seq 0 n; (λ j, if decide (i = j) then values !!! i else Integer 0) <$> seq 0 n).

(** ** construct_explicit_matrix *)

(** [name+'_{}{}'.format(r, c)] *)
Definition element_name (name : string) (r c : nat) : string :=
  name +:+ "_" +:+ pretty r +:+ pretty c.

(** The result is [None] when a call of the symbol function is outside
    the model. *)
Definition construct_explicit_matrix (name : string) (n m : nat)
    (symmetric diagonal dynamic : bool) (kwass : kwargs)
    : option (result (Matrix expr)) :=
  let symbol_func := if dynamic then dynamicsymbols else symbols in
  if bool_decide (n ≠ m) && (diagonal || symmetric)
  then Some (Raise (ValueError CannotMakeSymmetricOrDiagonal))
  else if diagonal
  then
    (λ called, values ← called; Ok (diag values))
      <$> comprehension (λ i, symbol_func (element_name name (i + 1) (i + 1)) kwass)
            (range 0 m)
  else
    (λ called,
       rows ← called;
       let matrix := Matrix_of_rows rows in
       if symmetric
       then for_each (range 1 m) (λ i matrix,
              for_each (range 0 i) (λ j matrix,
                v ← getitem matrix j i; setitem matrix i j v) matrix) matrix
       else Ok matrix)
      <$> comprehension (λ j,
            comprehension (λ i, symbol_func (element_name name (j + 1) (i + 1)) kwass)
              (range 0 m))
            (range 0 n).

(** ** matrix_subs *)

(** The Python values [matrix_subs] may be handed: matrices, scalar
    expressions, tuples, lists and dicts from matrix to matrix (a dict is
    the list of its items in insertion order). *)
#[warnings="-register-all"]
Inductive pyobj : Type :=
  | PMatrix (M : Matrix expr)
  | PExpr (e : expr)
  | PTuple (items : list pyobj)
  | PList (items : list pyobj)
  | PDict (items : list (Matrix expr * Matrix expr)).

(** What [matrix_subs] returns: a tuple of pairs, a dict from expression to
    expression (the list of its items in insertion order), or [None] when
    no branch returns. *)
Inductive subs_value : Type :=
  | SubsTuple (pairs : list (expr * expr))
  | SubsDict (items : list (expr * expr))
  | SubsNone.

(** [isinstance(o, (list, tuple, dict))] *)
Definition is_list_tuple_dict (o : pyobj) : bool :=
  match o with
  | PTuple _ | PList _ | PDict _ => true
  | _ => false
  end.

(** [o[k]] for an integer [k]. The keys of a dict are matrices, so an
    integer is never one of them. *)
Definition subscript (o : pyobj) (k : nat) : result pyobj :=
  match o with
  | PTuple items | PList items =>
      match items !! k with
      | Some x => Ok x
      | None => Raise IndexError
      end
  | PDict _ => Raise KeyError
  | PMatrix M =>
      if bool_decide (k < rows M * cols M) then Ok (PExpr (mat M !!! k))
      else Raise IndexError
  | PExpr _ => Raise TypeError
  end.

(** [o.shape] *)
Definition shape_of (o : pyobj) : result (nat * nat) :=
  match o with
  | PMatrix M => Ok (shape M)
  | _ => Raise AttributeError
  end.

(** [o[i, j]] *)
Definition subscript2 (o : pyobj) (i j : nat) : result expr :=
  match o with
  | PMatrix M => getitem M i j
  | PDict _ => Raise KeyError
  | _ => Raise TypeError
  end.

(** The generator shared by both branches of [matrix_subs]:
    [(sub[0][i, j], sub[1][i, j]) for sub in subs
       for i in range(sub[0].shape[0]) for j in range(sub[0].shape[1])
       if sub[0][i, j] != 0]. [substitutions_of] is what one [sub] yields;
    [sub[0]] is the same object at each of its uses. *)
Definition substitutions_of (sub : pyobj) : result (list (expr * expr)) :=
  sub0 ← subscript sub 0;
  sh ← shape_of sub0;
  collect (range 0 sh.1) (λ i,
    collect (range 0 sh.2) (λ j,
      e ← subscript2 sub0 i j;
      if nonzero e
      then sub1 ← subscript sub 1; v ← subscript2 sub1 i j; Ok [(e, v)]
      else Ok [])).

Definition substitutions (subs : list pyobj) : result (list (expr * expr)) :=
  collect subs substitutions_of.

(** [d[k] = v] on a dict kept as the list of its items: a key already
    present keeps its place and takes the new value. *)
Fixpoint dict_set (d : list (expr * expr)) (k v : expr) : list (expr * expr) :=
  match d with
  | [] => [(k, v)]
  | (k', v') :: rest =>
      if decide (k' = k) then (k, v) :: rest else (k', v') :: dict_set rest k v
  end.

(** [matrix_subs] receives the tuple of its positional arguments. *)
Definition matrix_subs (args : list pyobj) : result subs_value :=
  let subs :=
    if bool_decide (length args = 2)
       && negb (from_option is_list_tuple_dict false (head args))
    then PList [PTuple args]
    else PTuple args in
  match subs with
  | PList items | PTuple items =>
      pairs ← substitutions items; Ok (SubsTuple pairs)
  | PDict items =>
      pairs ← substitutions ((λ kv, PTuple [PMatrix kv.1; PMatrix kv.2]) <$> items);
      Ok (SubsDict (foldl (λ d p, dict_set d p.1 p.2) [] pairs))
  | _ => Ok SubsNone
  end.

(** ** block_matrix *)

(** [A.row_join(B)]: the columns of [B] after those of [A]. A matrix without
    columns takes the row count of the other one. *)
Definition row_join (A B : Matrix expr) : result (Matrix expr) :=
  let A := if bool_decide (cols A = 0 ∧ rows A ≠ rows B)
           then mk_matrix (rows B) 0 [] else A in
  if bool_decide (rows A ≠ rows B) then Raise ShapeError
  else Ok (mk_matrix (rows A) (cols A + cols B)
             (i ← seq 0 (rows A);
              (entry A i <$> seq 0 (cols A)) ++ (entry B i <$> seq 0 (cols B)))).

(** [A.col_join(B)]: the rows of [B] below those of [A]. A matrix without
    rows takes the column count of the other one. *)
Definition col_join (A B : Matrix expr) : result (Matrix expr) :=
  let A := if bool_decide (rows A = 0 ∧ cols A ≠ cols B)
           then mk_matrix 0 (cols B) [] else A in
  if bool_decide (cols A ≠ cols B) then Raise ShapeError
  else Ok (mk_matrix (rows A + rows B) (cols A)
             ((i ← seq 0 (rows A); entry A i <$> seq 0 (cols A)) ++
              (i ← seq 0 (rows B); entry B i <$> seq 0 (cols B)))).

(** A call of the method [f(self, other)], taken from its class, on an
    unpacked tuple of arguments: exactly two positional arguments are
    accepted. *)
Definition call_binary {X Y : Type} (f : X → X → result Y) (args : list X)
    : result Y :=
  match args with
  | [self; other] => f self other
  | _ => Raise TypeError
  end.

(** [tuple(f(x) for x in items)] *)
Definition tuple_of {X Y : Type} (f : X → result Y) (items : list X)
    : result (list Y) :=
  collect items (λ x, y ← f x; Ok [y]).

Definition block_matrix (blocks : list (list (Matrix expr))) : result (Matrix expr) :=
  joined ← tuple_of (λ row, call_binary row_join row) blocks;
  call_binary col_join joined.

(** ** matrix_callable_from_vector_trajectory *)

Section trajectory_defs.
(** numpy's floating-point numbers, with [0.0]. *)
Context {num : Type}.
Variable zero : num.

(** The arrays a trajectory callable returns: one-dimensional or
    two-dimensional. *)
Inductive ndarray : Type :=
  | Array1 (values : list num)
  | Array2 (lines : list (list num)).

(** The time argument: one time, or a list, tuple or array of times. *)
Inductive time_arg : Type :=
  | Scalar (t : num)
  | Sequence (ts : list num).

(** [a[k]]: a number of a one-dimensional array, a line of a
    two-dimensional one. *)
Inductive array_item : Type :=
  | ItemScalar (v : num)
  | ItemArray (vs : list num).

Definition array_getitem (a : ndarray) (k : nat) : result array_item :=
  match a with
  | Array1 values =>
      match values !! k with
      | Some v => Ok (ItemScalar v)
      | None => Raise IndexError
      end
  | Array2 lines =>
      match lines !! k with
      | Some vs => Ok (ItemArray vs)
      | None => Raise IndexError
      end
  end.

(** The value [matrix_callable] returns: one matrix ([np.matlib.zeros] of
    the layout's shape, filled in), or an array of shape (k, p, q) kept as
    the list of its k matrices. *)
Inductive matrix_value : Type :=
  | Single (M : Matrix num)
  | Stacked (Ms : list (Matrix num)).

(** [unraveled] is a list of symbols or a matrix of symbols. *)
Inductive unraveled_arg : Type :=
  | UList (l : list expr)
  | UMatrix (M : Matrix expr).

(** [matrix_result[i, j] = v] on the single matrix: [v] is a number or an
    array of one number. *)
Definition assign_single (M : Matrix num) (i j : nat) (v : array_item)
    : result (Matrix num) :=
  match v with
  | ItemScalar x | ItemArray [x] => setitem M i j x
  | ItemArray _ => Raise (ValueError CouldNotBroadcast)
  end.

(** [matrix_result[..., i, j] = v] on the stack of k matrices: a number
    goes to every matrix, an array of k numbers gives one to each, an
    array of one number is broadcast. *)
Definition assign_stacked (Ms : list (Matrix num)) (i j : nat) (v : array_item)
    : result (list (Matrix num)) :=
  match v with
  | ItemScalar x | ItemArray [x] => tuple_of (λ M, setitem M i j x) Ms
  | ItemArray vs =>
      if bool_decide (length vs = length Ms)
      then tuple_of (λ Mx, setitem Mx.1 i j Mx.2) (zip Ms vs)
      else Raise (ValueError CouldNotBroadcast)
  end.

Definition assign (matrix_result : matrix_value) (i j : nat) (v : array_item)
    : result matrix_value :=
  match matrix_result with
  | Single M => M' ← assign_single M i j v; Ok (Single M')
  | Stacked Ms => Ms' ← assign_stacked Ms i j v; Ok (Stacked Ms')
  end.

(** The body of the loop over the cells of [raveled]:
    [idx = unraveled.index(raveled[i, j])], then the assignment of
    [vector_result[idx]] to the cell. *)
Definition reconstruct_step (vector_result : ndarray) (unraveled : list expr)
    (raveled : Matrix expr) (cell : nat * nat) (matrix_result : matrix_value)
    : result matrix_value :=
  let '(i, j) := cell in
  sym ← getitem raveled i j;
  idx ← index unraveled sym;
  v ← array_getitem vector_result idx;
  assign matrix_result i j v.

(** [matrix_result] before the loop: the stack of [len(t)] zero matrices
    for a sequence of more than one time, one zero matrix otherwise. *)
Definition initial_result (raveled : Matrix expr) (t : time_arg) : matrix_value :=
  match t with
  | Sequence ts =>
      if bool_decide (1 < length ts)
      then Stacked (replicate (length ts) (zeros zero (rows raveled) (cols raveled)))
      else Single (zeros zero (rows raveled) (cols raveled))
  | Scalar _ => Single (zeros zero (rows raveled) (cols raveled))
  end.

(** The closure [matrix_callable(t)]. [as_array] is set exactly when the
    result is the stack, so the two assignments are told apart by the
    form of [matrix_result]. *)
Definition matrix_callable (vector_callable : time_arg → ndarray)
    (unraveled : list expr) (raveled : Matrix expr) (t : time_arg)
    : result matrix_value :=
  let vector_result := vector_callable t in
  let matrix_result := initial_result raveled t in
  iterator ← nditer raveled;
  for_each iterator (reconstruct_step vector_result unraveled raveled) matrix_result.

(** [callable_from_trajectory] (simupy.utils) is not part of the module:
    it is a parameter, giving for the time data and the samples the
    interpolating callable. *)
Variable callable_from_trajectory : list num → Matrix num → time_arg → ndarray.

Definition matrix_callable_from_vector_trajectory (tt : list num)
    (x : Matrix num) (unraveled : unraveled_arg) (raveled : Matrix expr)
    : time_arg → result matrix_value :=
  let '(xn, xm) := shape x in
  let vector_callable := callable_from_trajectory tt x in
  let unraveled :=
    match unraveled with
    | UMatrix M => flatten (tolist M)
    | UList l => l
    end in
  matrix_callable vector_callable unraveled raveled.
End trajectory_defs.

(** ** system_from_matrix_DE *)

(** Modelled from the spec: the vector-form dynamical-system object
    (simupy.systems.DynamicalSystem, absent from the sources) is built from
    the derivative-expression vector, the state-variable vector, the input
    vector and the constants mapping, and is opaque otherwise. *)
Record DynamicalSystem : Type := mk_DynamicalSystem {
  state_equation : Matrix expr;
  state : Matrix expr;
  input : Matrix expr;
  constants_values : list (expr * expr)
}.

Section converter_defs.
(** [list(set(l))]: the distinct members of [l] in the iteration order of
    the set, which Python leaves unspecified; a parameter. [mat_input] and
    [constants] have defaults in the source (the empty matrix, the empty
    dict) and are explicit here. *)
Variable list_set : list expr → list expr.

(** The body of the loop over the cells of [mat_DE]:
    [idx = vec_var.index(mat_var[i, j]); vec_DE[idx] = mat_DE[i, j]]. *)
Definition converter_step (mat_DE mat_var : Matrix expr) (vec_var : list expr)
    (cell : nat * nat) (vec_DE : Matrix expr) : result (Matrix expr) :=
  let '(i, j) := cell in
  sym ← getitem mat_var i j;
  idx ← index vec_var sym;
  e ← getitem mat_DE i j;
  setitem_flat vec_DE idx e.

Definition system_from_matrix_DE (mat_DE mat_var mat_input : Matrix expr)
    (constants : list (expr * expr)) : result DynamicalSystem :=
  let vec_var := list_set (flatten (tolist mat_var)) in
  let vec_DE := zeros (Integer 0) (length vec_var) 1 in
  iterator ← nditer mat_DE;
  vec_DE ← for_each iterator (converter_step mat_DE mat_var vec_var) vec_DE;
  Ok (mk_DynamicalSystem vec_DE (Matrix_of_list vec_var) mat_input constants).
End converter_defs.

(** ** Notions used by the statements *)

(** The positions of [S] whose entry is not the zero, row after row. *)
Definition nonzero_cells (S : Matrix expr) : list (nat * nat) :=
  filter (λ ij, entry S ij.1 ij.2 ≠ Integer 0) (cells (rows S) (cols S)).

(** The number of entries of [S] that are not the zero. *)
Definition count_nonzero (S : Matrix expr) : nat := length (nonzero_cells S).

(** One pair (symbol, value) for each such position. *)
Definition substitution_pairs (S V : Matrix expr) : list (expr * expr) :=
  (λ ij, (entry S ij.1 ij.2, entry V ij.1 ij.2)) <$> nonzero_cells S.

(** An expression that is a symbol, plain or time-dependent. *)
Definition is_symbol (e : expr) : Prop :=
  match e with
  | Symbol _ _ | AppliedUndef _ _ => True
  | _ => False
  end.

(** An expression that is a number. *)
Definition is_number (e : expr) : Prop :=
  match e with
  | Integer _ => True
  | _ => False
  end.

(** The values fit the symbols: the non-zero entries of [S] are symbols,
    the values at their positions are numbers, and two positions holding
    the same symbol hold the same value. *)
Definition values_fit (S V : Matrix expr) : Prop :=
  ∀ i j, i < rows S → j < cols S → entry S i j ≠ Integer 0 →
    is_symbol (entry S i j) ∧ is_number (entry V i j) ∧
    ∀ i' j', i' < rows S → j' < cols S → entry S i' j' = entry S i j →
      entry V i' j' = entry V i j.

(** The claim C7 as it is written, for one pair of matrices. *)
Definition flattener_round_trip (S V : Matrix expr) : Prop :=
  ∃ pairs,
    matrix_subs [PMatrix S; PMatrix V] = Ok (SubsTuple pairs) ∧
    length pairs = count_nonzero S ∧
    ∀ i j, i < rows S → j < cols S → entry S i j ≠ Integer 0 →
      (entry S i j, entry V i j) ∈ pairs ∧
      subs pairs (entry S i j) = entry V i j.

(** ** Sample data of the statements *)

Definition sym_a : expr := Symbol "a" [].
Definition sym_b : expr := Symbol "b" [].
Definition sym_c : expr := Symbol "c" [].

(** A symbolic matrix holding one symbol twice, and two values for it. *)
Definition S_repeated : Matrix expr := mk_matrix 1 2 [sym_a; sym_a].
Definition V_distinct : Matrix expr := mk_matrix 1 2 [Integer 1; Integer 2].

(** A symbolic matrix with a zero and a repeated symbol, and values that
    fit it. *)
Definition S_sample : Matrix expr := mk_matrix 2 2 [sym_a; Integer 0; sym_b; sym_a].
Definition V_sample : Matrix expr :=
  mk_matrix 2 2 [Integer 1; Integer 2; Integer 3; Integer 1].

(** The blocks of a grid agree: the blocks of one block-row have one row
    count, and the blocks at one place of two block-rows have one column
    count. *)
Definition grid_agrees (blocks : list (list (Matrix expr))) : Prop :=
  (∀ row A B, row ∈ blocks → A ∈ row → B ∈ row → rows A = rows B) ∧
  (∀ row1 row2 k A B, row1 ∈ blocks → row2 ∈ blocks →
     row1 !! k = Some A → row2 !! k = Some B → cols A = cols B) ∧
  (∀ row1 row2, row1 ∈ blocks → row2 ∈ blocks → length row1 = length row2).

(** A grid of two block-rows of two blocks each. *)
Definition two_by_two (blocks : list (list (Matrix expr))) : Prop :=
  length blocks = 2 ∧ Forall (λ row, length row = 2) blocks.

(** Blocks of shapes 2 by 3, 2 by 2, 1 by 3 and 1 by 2. *)
Definition block_23 : Matrix expr :=
  mk_matrix 2 3 (Integer <$> [11; 12; 13; 21; 22; 23]%Z).
Definition block_22 : Matrix expr := mk_matrix 2 2 (Integer <$> [14; 15; 24; 25]%Z).
Definition block_13 : Matrix expr := mk_matrix 1 3 (Integer <$> [31; 32; 33]%Z).
Definition block_12 : Matrix expr := mk_matrix 1 2 (Integer <$> [34; 35]%Z).

(** [list_set] lists a set: no member twice, and exactly the members of
    the list the set was made of. *)
Definition set_order (list_set : list expr → list expr) : Prop :=
  ∀ l, NoDup (list_set l) ∧ ∀ x, x ∈ list_set l ↔ x ∈ l.

(** The number of distinct members of a list. *)
Definition distinct_count (l : list expr) : nat := length (remove_dups l).

(** A matrix that has an element. *)
Definition nonempty {A : Type} (M : Matrix A) : Prop := rows M * cols M ≠ 0.

(** The matrix without rows and columns. *)
Definition empty_matrix : Matrix expr := mk_matrix 0 0 [].

(** A derivative matrix of one cell and a state matrix of two. *)
Definition DE_small : Matrix expr := mk_matrix 1 1 [Add sym_a sym_b].
Definition var_wide : Matrix expr := mk_matrix 1 2 [sym_a; sym_b].

(** A matrix differential equation on a symmetric state matrix. *)
Definition DE_sample : Matrix expr :=
  mk_matrix 2 2 [Add sym_a sym_b; sym_b; sym_b; Mul sym_a sym_c].
Definition var_sample : Matrix expr := mk_matrix 2 2 [sym_a; sym_b; sym_b; sym_c].

Section trajectory_notions.
Context {num : Type} `{Inhabited num}.

(** The list of symbols the closure holds for the argument [unraveled]. *)
Definition unraveled_list (unraveled : unraveled_arg) : list expr :=
  match unraveled with
  | UMatrix M => flatten (tolist M)
  | UList l => l
  end.

(** The column of the samples that belongs to a symbol: its first
    position in the unraveled order. *)
Definition column_of (unraveled : list expr) (sym : expr) : nat :=
  default 0 (list_index sym unraveled).

(** The matrix rebuilt from the values of the symbols: at each cell, the
    value in the column of the cell's symbol. *)
Definition reconstructed (unraveled : list expr) (raveled : Matrix expr)
    (values : list num) : Matrix num :=
  mk_matrix (rows raveled) (cols raveled)
    (i ← seq 0 (rows raveled);
     (λ j, values !!! column_of unraveled (entry raveled i j)) <$> seq 0 (cols raveled)).

(** Every symbol of the layout occurs in the unraveled order. *)
Definition drawn_from (raveled : Matrix expr) (unraveled : list expr) : Prop :=
  ∀ i j, i < rows raveled → j < cols raveled → entry raveled i j ∈ unraveled.

(** The values of the symbols at the time of position [l], in an array
    that holds one line per symbol. *)
Definition values_at (lines : list (list num)) (l : nat) : list num :=
  (λ vs, vs !!! l) <$> lines.

(** The value of the symbol of column [c] at the time of position [l],
    in an array that holds one line per time, as the samples do. *)
Definition sample_value (lines : list (list num)) (l c : nat) : num :=
  (lines !!! l) !!! c.

(** The size of the stack that a time argument asks for: k for a sequence
    of k > 1 times, none otherwise. *)
Definition stack_size (t : @time_arg num) : option nat :=
  match t with
  | Sequence ts => if bool_decide (1 < length ts) then Some (length ts) else None
  | Scalar _ => None
  end.

(** An item that numpy can assign to a cell of the result: a number, an
    array of one number, or, for a stack of k matrices, an array of k
    numbers. *)
Definition fits (t : @time_arg num) (v : @array_item num) : Prop :=
  match v with
  | ItemScalar _ => True
  | ItemArray vs => length vs = 1 ∨ stack_size t = Some (length vs)
  end.

(** The array gives, for every symbol of the layout that the unraveled
    order holds, an item at the column of the symbol, and this item can be
    assigned to a cell. *)
Definition assignable (unraveled : list expr) (raveled : Matrix expr)
    (t : @time_arg num) (a : @ndarray num) : Prop :=
  ∀ i j, i < rows raveled → j < cols raveled → entry raveled i j ∈ unraveled →
    ∃ v, array_getitem a (column_of unraveled (entry raveled i j)) = Ok v ∧ fits t v.

(** A result of the form the time argument asks for, every matrix of it
    having the shape of the layout. *)
Definition well_shaped (raveled : Matrix expr) (t : @time_arg num)
    (r : @matrix_value num) : Prop :=
  match r with
  | Single M => stack_size t = None ∧ rows M = rows raveled ∧ cols M = cols raveled
  | Stacked Ms =>
      stack_size t = Some (length Ms) ∧
      Forall (λ M, rows M = rows raveled ∧ cols M = cols raveled) Ms
  end.

(** The matrices of a result: the single one, or those of the stack. *)
Definition matrices_of (r : @matrix_value num) : list (Matrix num) :=
  match r with
  | Single M => [M]
  | Stacked Ms => Ms
  end.

(** The number that the assignment of an item writes to the matrix of
    position [l]. *)
Definition written (v : @array_item num) (l : nat) : num :=
  match v with
  | ItemScalar x | ItemArray [x] => x
  | ItemArray vs => vs !!! l
  end.
End trajectory_notions.

(** The layout [[a, b], [b, c]] of the unraveled order [a, b, c]. *)
Definition raveled_sample : Matrix expr := mk_matrix 2 2 [sym_a; sym_b; sym_b; sym_c].


(** A sample trajectory callable over integers, holding the first sample:
    at one time the first row of the samples; at k > 1 times one line per
    symbol, holding k times its value. *)
Definition hold_first (tt : list Z) (x : Matrix Z) (t : @time_arg Z) : @ndarray Z :=
  let row := entry x 0 <$> seq 0 (cols x) in
  match t with
  | Scalar _ => Array1 row
  | Sequence ts =>
      if bool_decide (1 < length ts)
      then Array2 ((λ v, replicate (length ts) v) <$> row)
      else Array1 row
  end.

(** One sample row [1, 2, 3] at the time 0. *)
Definition x_sample : Matrix Z := mk_matrix 1 3 [1; 2; 3]%Z.


(** A trajectory callable over integers that answers from the samples, in
    their layout: at the time t the row t of the samples; for a sequence
    of times the array holding one such row per time. *)
Definition sample_rows (tt : list Z) (x : Matrix Z) (t : @time_arg Z) : @ndarray Z :=
  let row (t : Z) := entry x (Z.to_nat t) <$> seq 0 (cols x) in
  match t with
  | Scalar t => Array1 (row t)
  | Sequence ts => Array2 (row <$> ts)
  end.

(** Samples of the symbols [a] and [b] at two times and at three times. *)
Definition x_two : Matrix Z := mk_matrix 2 2 [1; 2; 3; 4]%Z.

(** Samples of the symbols [a], [b] and [c] at two times. *)
Definition x_wide : Matrix Z := mk_matrix 2 3 [1; 2; 3; 4; 5; 6]%Z.

(** The layout [[a, b]] of the unraveled order [a, b]. *)
Definition raveled_row : Matrix expr := mk_matrix 1 2 [sym_a; sym_b].


(** ** Notions used by the further properties *)

(** The symbol the builder makes for the cell of row [r] and column [c]
    (counted from 0): [symbol_func(name+'_{}{}'.format(r+1, c+1))]. *)
Definition element (name : string) (dynamic : bool) (kwass : kwargs) (r c : nat)
    : expr :=
  (if dynamic then AppliedUndef else Symbol) (element_name name (r + 1) (c + 1)) kwass.

(** The derivative a system holds for a state symbol: the entry of the
    state equation at the position of the symbol in the state vector. *)
Definition derivative_of (sys : DynamicalSystem) (sym : expr) : option expr :=
  k ← list_index sym (mat (state sys)); mat (state_equation sys) !! k.

(** The cells of the shape of [mat_DE] at which [mat_var] holds [sym], row
    after row. *)
Definition cells_of_symbol (mat_DE mat_var : Matrix expr) (sym : expr)
    : list (nat * nat) :=
  filter (λ cell, entry mat_var cell.1 cell.2 = sym)
    (cells (rows mat_DE) (cols mat_DE)).

(** The derivative written last for [sym]: the entry of [mat_DE] at the
    last cell that holds [sym], and the zero when no cell holds it. *)
Definition last_derivative (mat_DE mat_var : Matrix expr) (sym : expr) : expr :=
  from_option (λ cell, entry mat_DE cell.1 cell.2) (Integer 0)
    (last (cells_of_symbol mat_DE mat_var sym)).

(** A state matrix holding [b] twice, with two different derivatives. *)
Definition DE_clash : Matrix expr := mk_matrix 1 3 [sym_a; Integer 1; Integer 2].
Definition var_clash : Matrix expr := mk_matrix 1 3 [sym_a; sym_b; sym_b].

(** The reverse of the first-seen order: another way to list a set. *)
Definition reversed_dups (l : list expr) : list expr := reverse (remove_dups l).

(** Values for the symbols [a], [b], [c]: 10, 20 and 30. *)
Definition value_sample (sym : expr) : Z :=
  if decide (sym = sym_a) then 10%Z else if decide (sym = sym_b) then 20%Z else 30%Z.

(** One sample row [10, 20, 30] at the time 0. *)
Definition x_values : Matrix Z := mk_matrix 1 3 [10; 20; 30]%Z.

(** A value matrix smaller than the symbolic matrix [S_sample]. *)
Definition V_short : Matrix expr := mk_matrix 1 2 [Integer 1; Integer 2].

(** A value matrix larger than the symbolic matrix [S_repeated]. *)
Definition V_large : Matrix expr :=
  mk_matrix 2 3 [Integer 1; Integer 2; Integer 3; Integer 4; Integer 5; Integer 6].

(** A trajectory callable over integers that answers in time-major form:
    at k > 1 times, one line per time holding the first row of the
    samples. *)
Definition hold_first_time_major (tt : list Z) (x : Matrix Z) (t : @time_arg Z)
    : @ndarray Z :=
  let row := entry x 0 <$> seq 0 (cols x) in
  match t with
  | Scalar _ => Array1 row
  | Sequence ts =>
      if bool_decide (1 < length ts) then Array2 (replicate (length ts) row)
      else Array1 row
  end.

(** * Properties *)

(** ** Row-major lists *)

Section flat.
Context {A : Type} (f : nat → nat → A) (c : nat).

Lemma length_flat s r :
  length (i ← seq s r; f i <$> seq 0 c) = r * c.
Proof.
  revert s. induction r as [|r IH]; intros s; [done|].
  cbn [seq]. rewrite bind_cons, length_app, length_fmap, length_seq, IH. lia.
Qed.

Lemma lookup_flat s r i j :
  i < r → j < c →
  (i' ← seq s r; f i' <$> seq 0 c) !! (i * c + j) = Some (f (s + i) j).
Proof.
  revert s i. induction r as [|r IH]; intros s i Hi Hj; [lia|].
  cbn [seq]. rewrite bind_cons. destruct i as [|i].
  - rewrite lookup_app_l by (rewrite length_fmap, length_seq; lia).
    rewrite list_lookup_fmap, lookup_seq_lt by lia.
    simpl. by rewrite Nat.add_0_r.
  - rewrite lookup_app_r by (rewrite length_fmap, length_seq; lia).
    rewrite length_fmap, length_seq.
    replace (S i * c + j - c) with (i * c + j) by lia.
    rewrite IH by lia. f_equal. f_equal. lia.
Qed.
End flat.

Lemma lookup_total_flat {A : Type} `{Inhabited A} (f : nat → nat → A) c r i j :
  i < r → j < c → (i' ← seq 0 r; f i' <$> seq 0 c) !!! (i * c + j) = f i j.
Proof.
  intros Hi Hj. apply list_lookup_total_correct.
  by rewrite lookup_flat.
Qed.

Lemma elem_of_cells r c i j : (i, j) ∈ cells r c ↔ i < r ∧ j < c.
Proof.
  unfold cells. rewrite list_elem_of_bind. split.
  - intros (i' & Hin & Hi'). apply list_elem_of_fmap in Hin as (j' & Heq & Hj').
    simplify_eq. apply elem_of_seq in Hi', Hj'. lia.
  - intros [Hi Hj]. exists i. split.
    + apply list_elem_of_fmap. exists j. split; [done|]. apply elem_of_seq. lia.
    + apply elem_of_seq. lia.
Qed.

(** ** construct_explicit_matrix *)

Lemma shape_diag values : shape (diag values) = (length values, length values).
Proof. done. Qed.

Lemma entry_diag values i j :
  i < length values → j < length values →
  entry (diag values) i j = if decide (i = j) then values !!! i else Integer 0.
Proof.
  intros Hi Hj. unfold entry, diag. cbn [mat cols].
  by rewrite (lookup_total_flat
    (λ i j, if decide (i = j) then values !!! i else Integer 0)).
Qed.

Lemma append_eq_length (s1 s2 t1 t2 : string) :
  String.length s1 = String.length s2 → s1 +:+ t1 = s2 +:+ t2 → s1 = s2.
Proof.
  revert s2. induction s1 as [|x s1 IH]; intros [|y s2]; simpl; try done.
  intros Hlen Heq. simplify_eq. f_equal. by apply IH.
Qed.

Lemma length_append (s t : string) :
  String.length (s +:+ t) = String.length s + String.length t.
Proof. induction s as [|x s IH]; simpl; [done|]. by rewrite IH. Qed.

(** The names given to two diagonal cells are different, also beyond
    nine rows. *)
Lemma element_name_diagonal_inj name i j :
  element_name name i i = element_name name j j → i = j.
Proof.
  unfold element_name. intros Heq.
  apply (inj (String.append name)) in Heq.
  apply (inj (String.append "_")) in Heq.
  assert (String.length (pretty i) = String.length (pretty j)) as Hlen.
  { apply (f_equal String.length) in Heq. rewrite !length_append in Heq. lia. }
  apply (inj pretty). by eapply append_eq_length.
Qed.

(** The strings the builder hands to the symbol function. *)
Lemma one_symbol_name_app (s t : string) :
  one_symbol_name (s +:+ t) = one_symbol_name s && one_symbol_name t.
Proof.
  induction s as [|c s IH]; [done|].
  change (String c s +:+ t) with (String c (s +:+ t)).
  cbn [one_symbol_name]. by rewrite IH, andb_assoc.
Qed.

Lemma one_symbol_name_pretty_go (x : N) (s : string) :
  one_symbol_name s = true → one_symbol_name (pretty_N_go x s) = true.
Proof.
  revert s. induction (N.lt_wf_0 x) as [x _ IH]; intros s Hs.
  assert (x = 0 ∨ 0 < x)%N as [->|?] by lia.
  - by rewrite pretty_N_go_0.
  - rewrite pretty_N_go_step by done. apply IH; [by apply N.div_lt|].
    cbn [one_symbol_name]. rewrite Hs, andb_true_r.
    unfold pretty_N_char. by repeat case_match.
Qed.

Lemma one_symbol_name_pretty (n : nat) : one_symbol_name (pretty n) = true.
Proof.
  unfold pretty, pretty_nat, pretty, pretty_N. case_decide; [done|].
  by apply one_symbol_name_pretty_go.
Qed.

(** A base name that is the name of one symbol gives cell names that are
    names of one symbol: the underscore and the digits added to it have no
    meaning for the parser. *)
Lemma one_symbol_element_name (name : string) (r c : nat) :
  one_symbol_name name = true → one_symbol_name (element_name name r c) = true.
Proof.
  intros Hname. unfold element_name.
  by rewrite !one_symbol_name_app, Hname, !one_symbol_name_pretty.
Qed.

Lemma element_name_nonempty (name : string) (r c : nat) :
  bool_decide (element_name name r c = EmptyString) = false.
Proof. apply bool_decide_eq_false. unfold element_name. by destruct name. Qed.

Lemma symbol_func_element (name : string) (dynamic : bool) (kwass : kwargs)
    (r c : nat) :
  one_symbol_name name = true → assumptions_only kwass = true →
  (if dynamic then dynamicsymbols else symbols)
    (element_name name (r + 1) (c + 1)) kwass
  = Some (Ok (element name dynamic kwass r c)).
Proof.
  intros Hname Hkw. unfold element.
  destruct dynamic; unfold dynamicsymbols, symbols, symbol_function;
    by rewrite Hkw, element_name_nonempty, one_symbol_element_name.
Qed.

Lemma comprehension_Ok {X Y : Type} (f : X → option (result Y)) (g : X → Y)
    (items : list X) :
  (∀ x, x ∈ items → f x = Some (Ok (g x))) →
  comprehension f items = Some (Ok (g <$> items)).
Proof.
  induction items as [|x items IH]; intros Hf; [done|].
  cbn [comprehension]. rewrite Hf by left.
  by rewrite IH by (intros y Hy; apply Hf; by right).
Qed.

(** The symbols of the diagonal branch. *)
Lemma diagonal_symbols (name : string) (n : nat) (dynamic : bool) (kwass : kwargs) :
  one_symbol_name name = true → assumptions_only kwass = true →
  comprehension
    (λ i, (if dynamic then dynamicsymbols else symbols)
            (element_name name (i + 1) (i + 1)) kwass) (range 0 n)
  = Some (Ok ((λ i, element name dynamic kwass i i) <$> seq 0 n)).
Proof.
  intros Hname Hkw. unfold range. rewrite Nat.sub_0_r.
  apply comprehension_Ok. intros i _. by apply symbol_func_element.
Qed.

Lemma symbol_ne_zero (name : string) (dynamic : bool) (kwass : kwargs) (r c : nat) :
  element name dynamic kwass r c ≠ Integer 0.
Proof. unfold element. by destruct dynamic. Qed.

Lemma element_diagonal_inj (name : string) (dynamic : bool) (kwass : kwargs)
    (i j : nat) :
  element name dynamic kwass i i = element name dynamic kwass j j → i = j.
Proof.
  unfold element. intros Heq.
  assert (element_name name (i + 1) (i + 1) = element_name name (j + 1) (j + 1))
    as Hname by (destruct dynamic; by simplify_eq).
  apply element_name_diagonal_inj in Hname. lia.
Qed.

(** C8, amended. For [n ≠ m] and the diagonal or the symmetric flag the
    builder raises the ValueError (the spec's InvalidShape) and returns
    nothing, whatever the name. For a base name that the symbol function
    reads as the name of one symbol (no comma, colon, backslash or white
    space), keyword arguments that only qualify the symbol, the diagonal
    flag and [n = m], it returns an n by n matrix whose off-diagonal
    entries are the zero and whose diagonal entries are the symbols made
    for the names [name_ii], none of them the zero and pairwise distinct.
    The symmetric flag changes nothing once the diagonal flag is set. *)
Theorem construct_explicit_matrix_diagonal (name : string) (n m : nat)
    (symmetric dynamic : bool) (kwass : kwargs) :
  (n ≠ m → ∀ diagonal, diagonal || symmetric = true →
     construct_explicit_matrix name n m symmetric diagonal dynamic kwass
     = Some (Raise (ValueError CannotMakeSymmetricOrDiagonal))) ∧
  (one_symbol_name name = true → assumptions_only kwass = true → n = m →
   ∃ M,
     construct_explicit_matrix name n m symmetric true dynamic kwass = Some (Ok M) ∧
     shape M = (n, n) ∧
     (∀ i j, i < n → j < n → i ≠ j → getitem M i j = Ok (Integer 0)) ∧
     (∀ i, i < n →
        getitem M i i = Ok (element name dynamic kwass i i) ∧
        is_symbol (element name dynamic kwass i i) ∧
        getitem M i i ≠ Ok (Integer 0)) ∧
     (∀ i j, i < n → j < n → i ≠ j → getitem M i i ≠ getitem M j j)) ∧
  construct_explicit_matrix name n m true true dynamic kwass
  = construct_explicit_matrix name n m false true dynamic kwass.
Proof.
  split; [|split].
  - intros Hnm diagonal Hflag. unfold construct_explicit_matrix.
    rewrite bool_decide_true by done. by rewrite Hflag.
  - intros Hname Hkw <-. unfold construct_explicit_matrix.
    rewrite bool_decide_false by (intros Hne; by apply Hne). cbn [andb].
    rewrite diagonal_symbols by done. cbn.
    set (values := _ <$> seq 0 n).
    assert (length values = n) as Hlen.
    { unfold values. by rewrite length_fmap, length_seq. }
    assert (∀ i, i < n → values !!! i = element name dynamic kwass i i) as Hval.
    { intros i Hi. apply list_lookup_total_correct. unfold values.
      by rewrite list_lookup_fmap, lookup_seq_lt by lia. }
    assert (∀ i j, i < n → j < n →
      getitem (diag values) i j
      = Ok (if decide (i = j) then values !!! i else Integer 0)) as Hget.
    { intros i j Hi Hj. unfold getitem. cbn [rows cols diag].
      rewrite bool_decide_true by lia. rewrite entry_diag; [done|lia..]. }
    exists (diag values). split; [done|]. split; [by rewrite shape_diag, Hlen|].
    split; [|split].
    + intros i j Hi Hj Hij. rewrite Hget by done. by rewrite decide_False.
    + intros i Hi. rewrite Hget, decide_True, Hval by done.
      split; [done|]. split; [unfold element; by destruct dynamic|].
      intros [= Heq]. by apply symbol_ne_zero in Heq.
    + intros i j Hi Hj Hij. rewrite !Hget, !decide_True, !Hval by done.
      intros [= Heq]. by apply element_diagonal_inj in Heq.
  - unfold construct_explicit_matrix. by rewrite !orb_true_l.
Qed.

Lemma construct_explicit_matrix_diagonal_witness :
  one_symbol_name "a" = true ∧ assumptions_only [("real", true)] = true ∧
  construct_explicit_matrix "a" 2 2 false true false [("real", true)]
  = Some (Ok (mk_matrix 2 2
      [Symbol "a_11" [("real", true)]; Integer 0;
       Integer 0; Symbol "a_22" [("real", true)]])).
Proof.
  split; [done|]. split; [done|].
  destruct (proj1 (proj2 (construct_explicit_matrix_diagonal "a" 2 2 false false
    [("real", true)])) eq_refl eq_refl eq_refl) as (M & HM & _).
  rewrite HM. symmetry. rewrite <- HM. reflexivity.
Defined.

(** C8, as written, fails for a name that the symbol function does not
    read as one symbol. For the name [a, :0] the symbol function is handed
    [a, :0_11] and [a, :0_22]: a name, a comma and a range without name, and
    it gives the symbol [a] both times; the builder succeeds for
    [n = m = 2], and the two diagonal entries of its matrix are the same
    symbol. For the name made of a comma the symbol function is handed
    [,_11] and raises the ValueError of a missing symbol between commas, so
    that no matrix is returned for [n = m = 1]. *)
Lemma construct_explicit_matrix_names_counterexample :
  (∃ M, construct_explicit_matrix "a, :0" 2 2 false true false [] = Some (Ok M) ∧
        shape M = (2, 2) ∧
        getitem M 0 0 = Ok (Symbol "a" []) ∧ getitem M 1 1 = Ok (Symbol "a" []) ∧
        getitem M 0 0 = getitem M 1 1) ∧
  construct_explicit_matrix "," 1 1 false true false []
  = Some (Raise (ValueError MissingSymbol)).
Proof. split; [|reflexivity]. eexists. split; [reflexivity|]. done. Qed.

(** ** matrix_subs *)


Lemma collect_Ok {X Y : Type} (items : list X) (piece : X → result (list Y))
    (g : X → list Y) :
  (∀ x, x ∈ items → piece x = Ok (g x)) → collect items piece = Ok (items ≫= g).
Proof.
  induction items as [|x items IH]; intros Hpiece; [done|].
  cbn [collect]. rewrite Hpiece by left. cbn.
  rewrite IH by (intros y Hy; apply Hpiece; by right). done.
Qed.

Lemma fmap_filter_product {B : Type} (P : nat * nat → Prop)
    `{!∀ x, Decision (P x)} (g : nat * nat → B) (li lj : list nat) :
  g <$> filter P (i ← li; (λ j, (i, j)) <$> lj)
  = i ← li; j ← lj; if decide (P (i, j)) then [g (i, j)] else [].
Proof.
  induction li as [|i li IH]; [done|].
  rewrite !bind_cons, filter_app, fmap_app, IH. f_equal.
  clear IH. induction lj as [|j lj IH]; [done|].
  rewrite fmap_cons, filter_cons, bind_cons.
  destruct (decide (P (i, j))); by rewrite <- IH.
Qed.

Lemma getitem_Ok {A : Type} `{Inhabited A} (M : Matrix A) i j :
  i < rows M → j < cols M → getitem M i j = Ok (entry M i j).
Proof. intros Hi Hj. unfold getitem. by rewrite bool_decide_true. Qed.

Lemma getitem_Raise {A : Type} `{Inhabited A} (M : Matrix A) i j :
  ¬ (i < rows M ∧ j < cols M) → getitem M i j = Raise IndexError.
Proof. intros Hij. unfold getitem. by rewrite bool_decide_false. Qed.

(** What the generator yields for one pair of matrices of one shape. *)
Lemma substitutions_of_pair (S V : Matrix expr) (wrap : list pyobj → pyobj) :
  (wrap = PTuple ∨ wrap = PList) →
  shape S = shape V →
  substitutions_of (wrap [PMatrix S; PMatrix V]) = Ok (substitution_pairs S V).
Proof.
  intros Hwrap Hshape. injection Hshape as Hrows Hcols.
  assert (subscript (wrap [PMatrix S; PMatrix V]) 0 = Ok (PMatrix S)) as H0
    by (by destruct Hwrap as [-> | ->]).
  assert (subscript (wrap [PMatrix S; PMatrix V]) 1 = Ok (PMatrix V)) as H1
    by (by destruct Hwrap as [-> | ->]).
  unfold substitutions_of. rewrite H0. cbn.
  rewrite (collect_Ok _ _ (λ i, j ← range 0 (cols S);
    if decide (entry S i j ≠ Integer 0) then [(entry S i j, entry V i j)] else [])).
  - unfold substitution_pairs, nonzero_cells, cells, range.
    rewrite (fmap_filter_product (λ ij, entry S ij.1 ij.2 ≠ Integer 0)).
    by rewrite !Nat.sub_0_r.
  - intros i Hi. apply elem_of_seq in Hi. apply collect_Ok.
    intros j Hj. apply elem_of_seq in Hj.
    rewrite getitem_Ok by lia. cbn. unfold nonzero.
    case_bool_decide; case_decide; try done.
    rewrite H1. cbn. rewrite getitem_Ok by lia. done.
Qed.

Lemma subs_number pairs v :
  is_number v → Forall (λ p, is_symbol p.1) pairs → subs pairs v = v.
Proof.
  intros Hv Hkeys. induction Hkeys as [|[k w] pairs Hk _ IH]; [done|].
  unfold subs in *. cbn [foldl]. destruct v; try done.
  cbn. rewrite decide_False; [done|]. intros <-. done.
Qed.

Lemma subs_symbol pairs e v :
  is_symbol e →
  Forall (λ p, is_symbol p.1 ∧ is_number p.2) pairs →
  (∀ w, (e, w) ∈ pairs → w = v) →
  (∃ w, (e, w) ∈ pairs) →
  subs pairs e = v.
Proof.
  intros He Hpairs. induction Hpairs as [|[k w] pairs [Hk Hw] Hpairs IH];
    intros Hsame [w' Hin]; [by apply elem_of_nil in Hin|].
  unfold subs in *. cbn [foldl fst snd]. destruct (decide (e = k)) as [->|Hne].
  - assert (w = v) as -> by (apply Hsame; left).
    assert (subs1 k v k = v) as -> by (destruct k; cbn; by rewrite decide_True).
    apply subs_number.
    + assert (is_number v) by done. done.
    + eapply Forall_impl; [done|]. by intros ? [? _].
  - assert (subs1 k w e = e) as ->.
    { destruct e; try done; cbn; by rewrite decide_False. }
    apply IH.
    + intros w'' Hin'. apply Hsame. by right.
    + exists w'. apply elem_of_cons in Hin as [Heq|Hin]; [|done]. by simplify_eq.
Qed.


Lemma elem_of_nonzero_cells S i j :
  (i, j) ∈ nonzero_cells S ↔ i < rows S ∧ j < cols S ∧ entry S i j ≠ Integer 0.
Proof.
  unfold nonzero_cells. rewrite list_elem_of_filter, elem_of_cells. naive_solver.
Qed.

Lemma elem_of_substitution_pairs S V p :
  p ∈ substitution_pairs S V ↔
  ∃ i j, i < rows S ∧ j < cols S ∧ entry S i j ≠ Integer 0 ∧
         p = (entry S i j, entry V i j).
Proof.
  unfold substitution_pairs. rewrite list_elem_of_fmap. split.
  - intros ([i j] & -> & Hin). apply elem_of_nonzero_cells in Hin.
    exists i, j. naive_solver.
  - intros (i & j & Hi & Hj & Hnz & ->). exists (i, j). split; [done|].
    by apply elem_of_nonzero_cells.
Qed.


(** C7, amended. For a symbolic matrix [S] with k entries that are not the
    zero and a value matrix [V] of the same shape, [matrix_subs] returns
    exactly k pairs: the pair (S[i,j], V[i,j]) of every position whose
    symbolic entry is not the zero, row after row, and nothing for the
    other positions. When the values fit the symbols (the non-zero entries
    are symbols, their values are numbers, equal symbols have equal values),
    substituting the pairs into [S] gives [V] at every such position. *)
Theorem matrix_subs_pair (S V : Matrix expr) :
  shape S = shape V →
  matrix_subs [PMatrix S; PMatrix V] = Ok (SubsTuple (substitution_pairs S V)) ∧
  length (substitution_pairs S V) = count_nonzero S ∧
  (∀ p, p ∈ substitution_pairs S V ↔
     ∃ i j, i < rows S ∧ j < cols S ∧ entry S i j ≠ Integer 0 ∧
            p = (entry S i j, entry V i j)) ∧
  (values_fit S V →
   ∀ i j, i < rows S → j < cols S → entry S i j ≠ Integer 0 →
     subs (substitution_pairs S V) (entry S i j) = entry V i j).
Proof.
  intros Hshape. split; [|split; [|split]].
  - unfold matrix_subs. cbn [length head from_option is_list_tuple_dict negb andb].
    rewrite bool_decide_true by done. cbn [andb].
    unfold substitutions. cbn [collect].
    rewrite (substitutions_of_pair S V PTuple) by auto. cbn. by rewrite app_nil_r.
  - unfold substitution_pairs, count_nonzero. by rewrite length_fmap.
  - apply elem_of_substitution_pairs.
  - intros Hfit i j Hi Hj Hnz. destruct (Hfit i j Hi Hj Hnz) as (Hsym & Hnum & Hsame).
    apply subs_symbol; [done|..].
    + apply Forall_forall. intros p Hp.
      apply elem_of_substitution_pairs in Hp as (i' & j' & Hi' & Hj' & Hnz' & ->).
      destruct (Hfit i' j' Hi' Hj' Hnz') as (? & ? & _). done.
    + intros w Hw.
      apply elem_of_substitution_pairs in Hw as (i' & j' & Hi' & Hj' & Hnz' & Heq).
      simplify_eq. by apply Hsame.
    + exists (entry V i j). apply elem_of_substitution_pairs. naive_solver.
Qed.

(** C7, as written, fails: with the symbol [a] at two positions and the
    values 1 and 2 there, the two pairs are returned, and substituting them
    gives 1 at both positions. *)
Lemma flattener_round_trip_counterexample :
  shape S_repeated = shape V_distinct ∧ ¬ flattener_round_trip S_repeated V_distinct.
Proof.
  split; [done|]. intros (pairs & Hsubs & _ & Hall).
  vm_compute in Hsubs. injection Hsubs as <-.
  destruct (Hall 0 1) as [_ Hsub]; [cbn; lia..|done|].
  vm_compute in Hsub. discriminate.
Qed.

Lemma matrix_subs_pair_witness :
  shape S_sample = shape V_sample ∧
  values_fit S_sample V_sample ∧
  matrix_subs [PMatrix S_sample; PMatrix V_sample]
  = Ok (SubsTuple [(sym_a, Integer 1); (sym_b, Integer 3); (sym_a, Integer 1)]) ∧
  count_nonzero S_sample = 3 ∧
  ∀ i j, i < 2 → j < 2 → entry S_sample i j ≠ Integer 0 →
    subs (substitution_pairs S_sample V_sample) (entry S_sample i j)
    = entry V_sample i j.
Proof.
  assert (values_fit S_sample V_sample) as Hfit.
  { intros i j Hi Hj Hnz. cbn in Hi, Hj.
    assert (i = 0 ∨ i = 1) as [-> | ->] by lia;
      assert (j = 0 ∨ j = 1) as [-> | ->] by lia;
      try (by destruct Hnz); (split; [done|]; split; [done|]);
      intros i' j' Hi' Hj'; cbn in Hi', Hj';
      assert (i' = 0 ∨ i' = 1) as [-> | ->] by lia;
      assert (j' = 0 ∨ j' = 1) as [-> | ->] by lia; by vm_compute. }
  destruct (matrix_subs_pair S_sample V_sample eq_refl) as (Hsubs & Hlen & _ & Hround).
  split; [done|]. split; [done|]. split; [exact Hsubs|].
  split; [done|]. exact (Hround Hfit).
Defined.

(** The pairs of several (symbolic, value) pairs come one after the other,
    in the order of the arguments: nothing is merged. *)
Lemma matrix_subs_sequence (ps : list (Matrix expr * Matrix expr)) :
  Forall (λ p, shape p.1 = shape p.2) ps →
  matrix_subs ((λ p, PTuple [PMatrix p.1; PMatrix p.2]) <$> ps)
  = Ok (SubsTuple (p ← ps; substitution_pairs p.1 p.2)).
Proof.
  intros Hshapes. unfold matrix_subs.
  assert (bool_decide (length ((λ p, PTuple [PMatrix p.1; PMatrix p.2]) <$> ps) = 2)
          && negb (from_option is_list_tuple_dict false
                     (head ((λ p, PTuple [PMatrix p.1; PMatrix p.2]) <$> ps)))
          = false) as ->.
  { destruct ps; [done|]. cbn. apply andb_false_r. }
  unfold substitutions.
  rewrite (collect_Ok _ _ (λ sub,
    match sub with
    | PTuple [PMatrix Ms; PMatrix Mv] => substitution_pairs Ms Mv
    | _ => []
    end)).
  - cbn. f_equal. f_equal. clear Hshapes. induction ps as [|p ps IH]; [done|].
    rewrite fmap_cons, !bind_cons. by rewrite IH.
  - intros sub Hsub. apply list_elem_of_fmap in Hsub as ([S V] & -> & Hin).
    rewrite Forall_forall in Hshapes. apply (substitutions_of_pair S V PTuple).
    + by left.
    + by apply (Hshapes (S, V)).
Qed.

Lemma matrix_subs_sequence_witness :
  Forall (λ p : Matrix expr * Matrix expr, shape p.1 = shape p.2)
    [(S_sample, V_sample); (S_repeated, V_distinct)] ∧
  matrix_subs [PTuple [PMatrix S_sample; PMatrix V_sample];
               PTuple [PMatrix S_repeated; PMatrix V_distinct]]
  = Ok (SubsTuple [(sym_a, Integer 1); (sym_b, Integer 3); (sym_a, Integer 1);
                   (sym_a, Integer 1); (sym_a, Integer 2)]).
Proof.
  assert (Forall (λ p : Matrix expr * Matrix expr, shape p.1 = shape p.2)
    [(S_sample, V_sample); (S_repeated, V_distinct)]) as Hshapes
    by (by repeat constructor).
  split; [done|].
  exact (matrix_subs_sequence [(S_sample, V_sample); (S_repeated, V_distinct)] Hshapes).
Defined.

(** C5 (code defect). A dict handed to [matrix_subs] arrives inside the
    tuple of the positional arguments, which is what the first branch
    iterates: the dict is subscripted with 0 and the call raises KeyError.
    The branch written for dicts is never taken. *)
Theorem matrix_subs_mapping_raises (items : list (Matrix expr * Matrix expr))
    (rest : list pyobj) :
  matrix_subs (PDict items :: rest) = Raise KeyError.
Proof.
  unfold matrix_subs. cbn [head from_option is_list_tuple_dict negb].
  by rewrite andb_false_r.
Qed.

(** ** block_matrix *)

Lemma entry_flat {A : Type} `{Inhabited A} (f : nat → nat → A) r c i j :
  i < r → j < c →
  entry (mk_matrix r c (i' ← seq 0 r; f i' <$> seq 0 c)) i j = f i j.
Proof. intros Hi Hj. unfold entry. cbn [mat cols]. by apply lookup_total_flat. Qed.

Lemma fmap_seq_app {A : Type} (f g : nat → A) (n k : nat) :
  (f <$> seq 0 n) ++ (g <$> seq 0 k)
  = (λ j, if decide (j < n) then f j else g (j - n)) <$> seq 0 (n + k).
Proof.
  rewrite seq_app, fmap_app. f_equal.
  - apply list_fmap_ext. intros i j Hj. apply lookup_seq in Hj as [-> Hlt].
    by rewrite decide_True by lia.
  - replace (0 + n) with (n + 0) by lia.
    rewrite <- (fmap_add_seq n 0 k), <- list_fmap_compose.
    apply list_fmap_ext. intros i j Hj. cbn.
    rewrite decide_False by lia. f_equal. lia.
Qed.

Lemma row_join_Ok (A B : Matrix expr) :
  rows A = rows B →
  ∃ M, row_join A B = Ok M ∧ rows M = rows A ∧ cols M = cols A + cols B ∧
    (∀ i j, i < rows A → j < cols A → entry M i j = entry A i j) ∧
    (∀ i j, i < rows A → j < cols B → entry M i (cols A + j) = entry B i j).
Proof.
  intros Hrows. unfold row_join.
  rewrite (bool_decide_false (cols A = 0 ∧ _)) by naive_solver.
  rewrite bool_decide_false by naive_solver.
  eexists. split; [done|]. cbn [rows cols]. split; [done|]. split; [done|].
  assert (∀ i j, i < rows A → j < cols A + cols B →
    entry (mk_matrix (rows A) (cols A + cols B)
      (i ← seq 0 (rows A);
       (entry A i <$> seq 0 (cols A)) ++ (entry B i <$> seq 0 (cols B)))) i j
    = if decide (j < cols A) then entry A i j else entry B i (j - cols A)) as Hentry.
  { intros i j Hi Hj.
    rewrite (list_bind_ext _ (λ i, (λ j, if decide (j < cols A) then entry A i j
      else entry B i (j - cols A)) <$> seq 0 (cols A + cols B)) _ (seq 0 (rows A)))
      by (try done; intros; apply fmap_seq_app).
    by rewrite (entry_flat (λ i j, if decide (j < cols A) then entry A i j
      else entry B i (j - cols A))). }
  split; intros i j Hi Hj; rewrite Hentry by lia.
  - by rewrite decide_True.
  - rewrite decide_False by lia. f_equal. lia.
Qed.

Lemma col_join_Ok (A B : Matrix expr) :
  cols A = cols B →
  ∃ M, col_join A B = Ok M ∧ rows M = rows A + rows B ∧ cols M = cols A ∧
    (∀ i j, i < rows A → j < cols A → entry M i j = entry A i j) ∧
    (∀ i j, i < rows B → j < cols A → entry M (rows A + i) j = entry B i j).
Proof.
  intros Hcols. unfold col_join.
  rewrite (bool_decide_false (rows A = 0 ∧ _)) by naive_solver.
  rewrite bool_decide_false by naive_solver.
  eexists. split; [done|]. cbn [rows cols]. split; [done|]. split; [done|].
  split; intros i j Hi Hj; unfold entry at 1; cbn [mat cols];
    apply list_lookup_total_correct.
  - rewrite lookup_app_l by (rewrite length_flat; nia).
    by rewrite lookup_flat.
  - rewrite lookup_app_r by (rewrite length_flat; nia).
    rewrite length_flat, Hcols.
    replace ((rows A + i) * cols B + j - rows A * cols B) with (i * cols B + j) by nia.
    rewrite lookup_flat by lia. done.
Qed.

(** A grid of two block-rows of two blocks is assembled: the row-matrices
    are joined side by side and then one below the other, and each block is
    found at its offset. *)
Lemma block_matrix_two_by_two (A B C D : Matrix expr) :
  rows A = rows B → rows C = rows D → cols A = cols C → cols B = cols D →
  ∃ M, block_matrix [[A; B]; [C; D]] = Ok M ∧
    shape M = (rows A + rows C, cols A + cols B) ∧
    (∀ i j, i < rows A → j < cols A → entry M i j = entry A i j) ∧
    (∀ i j, i < rows A → j < cols B → entry M i (cols A + j) = entry B i j) ∧
    (∀ i j, i < rows C → j < cols A → entry M (rows A + i) j = entry C i j) ∧
    (∀ i j, i < rows C → j < cols B →
       entry M (rows A + i) (cols A + j) = entry D i j).
Proof.
  intros HAB HCD HAC HBD.
  destruct (row_join_Ok A B HAB) as (T & HT & HTr & HTc & HTA & HTB).
  destruct (row_join_Ok C D HCD) as (U & HU & HUr & HUc & HUC & HUD).
  destruct (col_join_Ok T U) as (M & HM & HMr & HMc & HMT & HMU); [lia|].
  exists M. unfold block_matrix, tuple_of. cbn [collect call_binary].
  rewrite HT. cbn. rewrite HU. cbn. split; [done|].
  unfold shape. rewrite HMr, HMc, HTr, HUr, HTc. split; [done|].
  repeat split; intros i j Hi Hj.
  - rewrite HMT by lia. by apply HTA.
  - rewrite HMT by lia. by apply HTB.
  - rewrite HTr in HMU. rewrite HMU by lia. apply HUC; lia.
  - rewrite HTr in HMU. rewrite HMU by lia. rewrite HAC. apply HUD; lia.
Qed.

Lemma block_matrix_two_by_two_witness :
  rows block_23 = rows block_22 ∧ rows block_13 = rows block_12 ∧
  cols block_23 = cols block_13 ∧ cols block_22 = cols block_12 ∧
  ∃ M, block_matrix [[block_23; block_22]; [block_13; block_12]] = Ok M ∧
       shape M = (3, 5).
Proof.
  destruct (block_matrix_two_by_two block_23 block_22 block_13 block_12
    eq_refl eq_refl eq_refl eq_refl) as (M & HM & Hshape & _).
  split; [done|]. split; [done|]. split; [done|]. split; [done|].
  exists M. split; [exact HM|exact Hshape].
Defined.

(** The grid of blocks of shapes (2 by 3, 2 by 2 / 1 by 3, 1 by 2) gives
    the 3 by 5 matrix with every block at its offset. *)
Lemma block_matrix_example :
  block_matrix [[block_23; block_22]; [block_13; block_12]]
  = Ok (mk_matrix 3 5 (Integer <$>
      [11; 12; 13; 14; 15; 21; 22; 23; 24; 25; 31; 32; 33; 34; 35]%Z)).
Proof. reflexivity. Qed.

(** ** Loops *)

Lemma for_each_app {X S : Type} (l1 l2 : list X) (body : X → S → result S) s :
  for_each (l1 ++ l2) body s = s' ← for_each l1 body s; for_each l2 body s'.
Proof.
  revert s. induction l1 as [|x l1 IH]; intros s; [done|].
  cbn. destruct (body x s); cbn; [apply IH|done].
Qed.

(** A loop whose body keeps an invariant of the items already visited
    ends well, with the invariant of all the items. *)
Lemma for_each_invariant {X S : Type} (Inv : list X → S → Prop)
    (items : list X) (body : X → S → result S) (s : S) :
  Inv [] s →
  (∀ visited x rest s, items = visited ++ x :: rest → Inv visited s →
     ∃ s', body x s = Ok s' ∧ Inv (visited ++ [x]) s') →
  ∃ s', for_each items body s = Ok s' ∧ Inv items s'.
Proof.
  intros Hinit Hstep.
  cut (∀ todo visited s, items = visited ++ todo → Inv visited s →
         ∃ s', for_each todo body s = Ok s' ∧ Inv items s').
  { intros Hcut. by apply (Hcut items []). }
  induction todo as [|x todo IH]; intros visited s0 Hitems Hinv.
  - rewrite app_nil_r in Hitems. subst. by exists s0.
  - destruct (Hstep visited x todo s0 Hitems Hinv) as (s1 & Hbody & Hinv1).
    cbn. rewrite Hbody. cbn. apply (IH (visited ++ [x])); [|done].
    by rewrite <- app_assoc.
Qed.


(** The first item with a decidable property, and the items before it. *)
Lemma first_with {X : Type} (P : X → Prop) `{!∀ x, Decision (P x)} (l : list X) :
  Exists P l →
  ∃ before x after, l = before ++ x :: after ∧ P x ∧ Forall (λ y, ¬ P y) before.
Proof.
  induction l as [|y l IH]; intros HP; [by apply Exists_nil in HP|].
  destruct (decide (P y)) as [Hy|Hy].
  - by exists [], y, l.
  - apply Exists_cons in HP as [?|HP]; [done|].
    destruct (IH HP) as (before & x & after & -> & Hx & Hbefore).
    exists (y :: before), x, after. split; [done|]. split; [done|].
    by constructor.
Qed.

(** ** Cells and entries *)

Lemma NoDup_cells r c : NoDup (cells r c).
Proof.
  unfold cells. apply NoDup_bind.
  - intros i1 i2 [i j] _ _ H1 H2.
    apply list_elem_of_fmap in H1 as (? & ? & _), H2 as (? & ? & _). congruence.
  - intros i _. apply NoDup_fmap_2; [|apply NoDup_seq]. by intros ?? [=].
  - apply NoDup_seq.
Qed.

Lemma cell_index_inj c i j i' j' :
  j < c → j' < c → i * c + j = i' * c + j' → i = i' ∧ j = j'.
Proof.
  intros Hj Hj' Heq. assert (i = i') as ->; [|lia].
  destruct (Nat.lt_total i i') as [Hlt|[->|Hlt]]; [|done|].
  - assert ((i + 1) * c ≤ i' * c) by (apply Nat.mul_le_mono_r; lia). lia.
  - assert ((i' + 1) * c ≤ i * c) by (apply Nat.mul_le_mono_r; lia). lia.
Qed.

(** Two matrices of one shape, holding as many entries as the shape says,
    are equal when their entries are. *)
Lemma matrix_ext {A : Type} `{Inhabited A} (M N : Matrix A) :
  rows M = rows N → cols M = cols N →
  length (mat M) = rows M * cols M → length (mat N) = rows N * cols N →
  (∀ i j, i < rows M → j < cols M → entry M i j = entry N i j) →
  M = N.
Proof.
  destruct M as [r c l], N as [r' c' l']. cbn. intros <- <- Hl Hl' Hentry.
  f_equal. apply list_eq_same_length with (r * c); [done..|].
  intros k x y Hk Hx Hy.
  assert (0 < c) as Hc by nia.
  specialize (Hentry (k / c) (k mod c)). unfold entry in Hentry. cbn in Hentry.
  assert (k / c * c + k mod c = k) as Hdiv.
  { pose proof (Nat.div_mod k c). lia. }
  rewrite Hdiv in Hentry.
  rewrite (list_lookup_total_correct l k x Hx),
    (list_lookup_total_correct l' k y Hy) in Hentry.
  apply Hentry.
  - apply Nat.Div0.div_lt_upper_bound. lia.
  - apply Nat.mod_upper_bound. lia.
Qed.

Lemma setitem_Ok {A : Type} `{Inhabited A} (M : Matrix A) i j v :
  i < rows M → j < cols M →
  setitem M i j v
  = Ok (mk_matrix (rows M) (cols M) (<[i * cols M + j := v]> (mat M))).
Proof. intros Hi Hj. unfold setitem. by rewrite bool_decide_true. Qed.

Lemma entry_setitem {A : Type} `{Inhabited A} (M : Matrix A) i j v i' j' :
  length (mat M) = rows M * cols M →
  i < rows M → j < cols M → j' < cols M →
  entry (mk_matrix (rows M) (cols M) (<[i * cols M + j := v]> (mat M))) i' j'
  = if decide (i' = i ∧ j' = j) then v else entry M i' j'.
Proof.
  intros Hlen Hi Hj Hj'. unfold entry. cbn [mat cols]. case_decide as Hij.
  - destruct Hij as [-> ->]. apply list_lookup_total_correct.
    apply list_lookup_insert_eq. nia.
  - rewrite list_lookup_total_insert_ne; [done|].
    intros Heq. apply cell_index_inj in Heq; [|done..]. naive_solver.
Qed.

Lemma length_zeros {A : Type} (zero : A) r c : length (mat (zeros zero r c)) = r * c.
Proof. cbn. apply length_replicate. Qed.

(** ** list.index *)

Lemma list_index_Some {A : Type} `{EqDecision A} (x : A) l k :
  list_index x l = Some k → l !! k = Some x.
Proof.
  revert k. induction l as [|y l IH]; intros k; [done|]. cbn. case_decide.
  - intros [= <-]. by subst.
  - destruct (list_index x l) eqn:Hl; [|done]. intros [= <-]. by apply IH.
Qed.

Lemma list_index_elem_of {A : Type} `{EqDecision A} (x : A) l :
  x ∈ l → ∃ k, list_index x l = Some k.
Proof.
  induction l as [|y l IH]; intros Hin; [by apply elem_of_nil in Hin|].
  cbn. case_decide; [by eexists|].
  apply elem_of_cons in Hin as [->|Hin]; [done|].
  destruct (IH Hin) as [k ->]. by eexists.
Qed.


Lemma list_index_NoDup {A : Type} `{EqDecision A} (x : A) l k :
  NoDup l → l !! k = Some x → list_index x l = Some k.
Proof.
  intros Hnd Hk. destruct (list_index_elem_of x l) as [k' Hk'].
  { by eapply list_elem_of_lookup_2. }
  rewrite Hk'. f_equal. apply list_index_Some in Hk'.
  by eapply NoDup_lookup.
Qed.

(** ** block_matrix on other grids *)

Lemma call_binary_TypeError {X Y : Type} (f : X → X → result Y) (args : list X) :
  length args ≠ 2 → call_binary f args = Raise TypeError.
Proof. by destruct args as [|? [|? [|? ?]]]. Qed.

Lemma tuple_of_cases {X Y : Type} (f : X → result Y) (items : list X) (e : exn) :
  (∀ x, x ∈ items → (∃ y, f x = Ok y) ∨ f x = Raise e) →
  (∃ ys, tuple_of f items = Ok ys ∧ length ys = length items ∧
         ∀ x, x ∈ items → ∃ y, f x = Ok y)
  ∨ tuple_of f items = Raise e.
Proof.
  induction items as [|x items IH]; intros Hf.
  - left. exists []. split; [done|]. split; [done|].
    intros x Hx. by apply elem_of_nil in Hx.
  - unfold tuple_of in *. cbn [collect].
    destruct (Hf x) as [[y Hy]| ->]; [left|rewrite Hy; cbn|by right].
    destruct IH as [(ys & Hys & Hlen & Hall)|Hraise].
    + intros z Hz. apply Hf. by right.
    + left. exists (y :: ys). rewrite Hys. cbn. split; [done|]. split; [by rewrite Hlen|].
      intros z Hz. apply elem_of_cons in Hz as [->|Hz]; [by eexists|by apply Hall].
    + right. by rewrite Hraise.
Qed.

(** C9 (code defect). [row_join] and [col_join] take one other matrix, and
    [block_matrix] hands them all the blocks of a row, and all the rows, at
    once: a grid whose blocks agree is assembled only when it has two
    block-rows of two blocks, and every other grid raises TypeError. *)
Theorem block_matrix_other_grids (blocks : list (list (Matrix expr))) :
  grid_agrees blocks → ¬ two_by_two blocks →
  block_matrix blocks = Raise TypeError.
Proof.
  intros (Hrows & _ & _) Hgrid. unfold block_matrix.
  destruct (tuple_of_cases (λ row, call_binary row_join row) blocks TypeError)
    as [(joined & -> & Hlen & Hall)| ->]; [|cbn|done].
  - intros row Hrow. destruct row as [|A [|B [|C row]]]; try by right.
    left. cbn. destruct (row_join_Ok A B) as (M & HM & _); [|by eexists].
    apply (Hrows [A; B]); [done|by left|by right; left].
  - apply call_binary_TypeError. rewrite Hlen. intros Hlen2. apply Hgrid.
    split; [done|]. apply Forall_forall. intros row Hrow.
    destruct (Hall row Hrow) as [M HM].
    by destruct row as [|A [|B [|C row]]].
Qed.

Lemma block_matrix_other_grids_witness :
  grid_agrees [[block_23; block_22]] ∧ ¬ two_by_two [[block_23; block_22]] ∧
  block_matrix [[block_23; block_22]] = Raise TypeError.
Proof.
  assert (grid_agrees [[block_23; block_22]]) as Hagree.
  { split; [|split].
    - intros row A B Hrow HA HB. apply list_elem_of_singleton in Hrow as ->.
      apply elem_of_cons in HA as [->|HA], HB as [->|HB]; try done;
        try apply list_elem_of_singleton in HA as ->;
        try apply list_elem_of_singleton in HB as ->; done.
    - intros row1 row2 k A B Hrow1 Hrow2 HA HB.
      apply list_elem_of_singleton in Hrow1 as ->, Hrow2 as ->. congruence.
    - intros row1 row2 Hrow1 Hrow2.
      by apply list_elem_of_singleton in Hrow1 as ->, Hrow2 as ->. }
  assert (¬ two_by_two [[block_23; block_22]]) as Hgrid by (by intros [? _]).
  split; [done|]. split; [done|].
  exact (block_matrix_other_grids _ Hagree Hgrid).
Defined.

(** ** system_from_matrix_DE *)

Lemma flatten_tolist {A : Type} `{Inhabited A} (M : Matrix A) :
  flatten (tolist M) = i ← seq 0 (rows M); entry M i <$> seq 0 (cols M).
Proof. unfold flatten, tolist. by rewrite list_join_bind, list_fmap_bind. Qed.

Lemma elem_of_flatten_tolist {A : Type} `{Inhabited A} (M : Matrix A) x :
  x ∈ flatten (tolist M) ↔ ∃ i j, i < rows M ∧ j < cols M ∧ x = entry M i j.
Proof.
  rewrite flatten_tolist, list_elem_of_bind. split.
  - intros (i & Hx & Hi). apply list_elem_of_fmap in Hx as (j & -> & Hj).
    apply elem_of_seq in Hi, Hj. exists i, j. split_and!; [lia..|done].
  - intros (i & j & Hi & Hj & ->). exists i. split.
    + apply list_elem_of_fmap. exists j. split; [done|]. apply elem_of_seq. lia.
    + apply elem_of_seq. lia.
Qed.

Lemma flatten_tolist_lookup {A : Type} `{Inhabited A} (M : Matrix A) i j :
  i < rows M → j < cols M →
  flatten (tolist M) !! (i * cols M + j) = Some (entry M i j).
Proof. intros Hi Hj. rewrite flatten_tolist. by rewrite lookup_flat. Qed.

(** In a matrix that holds no entry twice, an entry tells its cell. *)
Lemma entry_inj {A : Type} `{Inhabited A} (M : Matrix A) i j i' j' :
  NoDup (flatten (tolist M)) →
  i < rows M → j < cols M → i' < rows M → j' < cols M →
  entry M i j = entry M i' j' → i = i' ∧ j = j'.
Proof.
  intros Hnd Hi Hj Hi' Hj' Heq.
  apply (cell_index_inj (cols M)); [done..|].
  eapply NoDup_lookup; [done|by apply flatten_tolist_lookup|].
  rewrite Heq. by apply flatten_tolist_lookup.
Qed.

Lemma length_set_order list_set l :
  set_order list_set → length (list_set l) = distinct_count l.
Proof.
  intros Hset. destruct (Hset l) as [Hnd Hin]. unfold distinct_count.
  apply Permutation_length, NoDup_Permutation; [done|apply NoDup_remove_dups|].
  intros x. by rewrite Hin, elem_of_remove_dups.
Qed.

Section converter.
Variable list_set : list expr → list expr.
Hypothesis Hset : set_order list_set.

(** The loop of the converter over cells that lie in both matrices: it
    ends well, and every position of the result holds the derivative of a
    visited cell whose state symbol has this position, or the zero when no
    visited cell has it. *)
Lemma converter_loop (mat_DE mat_var : Matrix expr) (cs : list (nat * nat)) :
  (∀ i j, (i, j) ∈ cs →
     i < rows mat_DE ∧ j < cols mat_DE ∧ i < rows mat_var ∧ j < cols mat_var) →
  let vec_var := list_set (flatten (tolist mat_var)) in
  ∃ vec_DE,
    for_each cs (converter_step mat_DE mat_var vec_var)
      (zeros (Integer 0) (length vec_var) 1) = Ok vec_DE ∧
    shape vec_DE = (length vec_var, 1) ∧
    length (mat vec_DE) = length vec_var ∧
    ∀ k, k < length vec_var →
      (∃ i j, (i, j) ∈ cs ∧
         list_index (entry mat_var i j) vec_var = Some k ∧
         mat vec_DE !! k = Some (entry mat_DE i j))
      ∨ ((∀ i j, (i, j) ∈ cs →
            list_index (entry mat_var i j) vec_var ≠ Some k) ∧
         mat vec_DE !! k = Some (Integer 0)).
Proof.
  intros Hcs vec_var. set (n := length vec_var).
  pose (Inv := λ (visited : list (nat * nat)) (M : Matrix expr),
    shape M = (n, 1) ∧ length (mat M) = n ∧
    ∀ k, k < n →
      (∃ i j, (i, j) ∈ visited ∧
         list_index (entry mat_var i j) vec_var = Some k ∧
         mat M !! k = Some (entry mat_DE i j))
      ∨ ((∀ i j, (i, j) ∈ visited →
            list_index (entry mat_var i j) vec_var ≠ Some k) ∧
         mat M !! k = Some (Integer 0))).
  apply (for_each_invariant Inv).
  - split; [done|]. split; [by rewrite length_zeros, Nat.mul_1_r|].
    intros k Hk. right. split; [intros i j Hin; by apply elem_of_nil in Hin|].
    cbn. apply lookup_replicate_2. lia.
  - intros visited [i j] rest M Hitems (Hshape & Hlen & Hall).
    destruct (Hcs i j) as (Hi & Hj & Hi' & Hj').
    { rewrite Hitems. apply elem_of_app. right. left. }
    destruct (list_index_elem_of (entry mat_var i j) vec_var) as [idx Hidx].
    { apply (Hset (flatten (tolist mat_var))).
      apply elem_of_flatten_tolist. exists i, j. split_and!; [lia..|done]. }
    assert (idx < n) as Hlt.
    { apply list_index_Some, lookup_lt_Some in Hidx. done. }
    injection Hshape as Hr Hc. unfold converter_step.
    rewrite !getitem_Ok by lia. cbn. unfold index. rewrite Hidx. cbn.
    unfold setitem_flat. rewrite bool_decide_true by (rewrite Hr, Hc; lia).
    eexists. split; [reflexivity|]. split; [by rewrite Hr, Hc|].
    cbn [mat]. split; [by rewrite length_insert|].
    intros k Hk. destruct (decide (k = idx)) as [->|Hne].
    + left. exists i, j. split; [apply elem_of_app; right; left|].
      split; [done|]. apply list_lookup_insert_eq. lia.
    + rewrite list_lookup_insert_ne by done.
      destruct (Hall k Hk) as [(i' & j' & Hin' & Hidx' & Hlook)|[Hno Hlook]].
      * left. exists i', j'. split; [apply elem_of_app; by left|done].
      * right. split; [|done]. intros i' j' Hin'.
        apply elem_of_app in Hin' as [Hin'|Hin']; [by apply Hno|].
        apply list_elem_of_singleton in Hin'. simplify_eq. congruence.
Qed.

Lemma nditer_Ok {A : Type} (M : Matrix A) :
  nonempty M → nditer M = Ok (cells (rows M) (cols M)).
Proof. intros HM. unfold nditer. by rewrite bool_decide_false. Qed.

Lemma nditer_Raise {A : Type} (M : Matrix A) :
  ¬ nonempty M → nditer M = Raise (ValueError ZeroSizedOperands).
Proof.
  intros HM. unfold nditer. rewrite bool_decide_true; [done|].
  unfold nonempty in HM. lia.
Qed.

(** On a derivative matrix that has an element and fits in the state
    matrix, the converter returns a system: the state is the listed set,
    and each position of the derivative vector holds the derivative of a
    cell whose state symbol has that position, or the zero. *)
Lemma converter_returns (mat_DE mat_var mat_input : Matrix expr)
    (constants : list (expr * expr)) :
  nonempty mat_DE → rows mat_DE ≤ rows mat_var → cols mat_DE ≤ cols mat_var →
  let vec_var := list_set (flatten (tolist mat_var)) in
  ∃ vec_DE,
    system_from_matrix_DE list_set mat_DE mat_var mat_input constants
    = Ok (mk_DynamicalSystem vec_DE (mk_matrix (length vec_var) 1 vec_var)
            mat_input constants) ∧
    shape vec_DE = (length vec_var, 1) ∧
    length (mat vec_DE) = length vec_var ∧
    ∀ k, k < length vec_var →
      (∃ i j, i < rows mat_DE ∧ j < cols mat_DE ∧
         list_index (entry mat_var i j) vec_var = Some k ∧
         mat vec_DE !! k = Some (entry mat_DE i j))
      ∨ ((∀ i j, i < rows mat_DE → j < cols mat_DE →
            list_index (entry mat_var i j) vec_var ≠ Some k) ∧
         mat vec_DE !! k = Some (Integer 0)).
Proof.
  intros Hne Hrows Hcols vec_var.
  destruct (converter_loop mat_DE mat_var (cells (rows mat_DE) (cols mat_DE)))
    as (vec_DE & Hloop & Hshape & Hlen & Hall).
  { intros i j Hin. apply elem_of_cells in Hin. lia. }
  exists vec_DE. split; [|split; [done|split; [done|]]].
  - unfold system_from_matrix_DE. rewrite nditer_Ok by done.
    cbn [mbind result_bind]. rewrite Hloop.
    cbn [mbind result_bind]. do 2 f_equal.
    assert (entry mat_var 0 0 ∈ vec_var) as Hin.
    { apply (Hset (flatten (tolist mat_var))), elem_of_flatten_tolist.
      unfold nonempty in Hne. exists 0, 0. split_and!; [nia..|done]. }
    unfold Matrix_of_list. clear -Hin. subst vec_var.
    destruct (list_set _); [by apply elem_of_nil in Hin|done].
  - intros k Hk. destruct (Hall k Hk) as [(i & j & Hin & Hidx & Hlook)|[Hno Hlook]].
    + left. exists i, j. apply elem_of_cells in Hin. naive_solver.
    + right. split; [|done]. intros i j Hi Hj. apply Hno. by apply elem_of_cells.
Qed.
End converter.

Lemma converter_step_outside (mat_DE mat_var : Matrix expr) vec_var i j vec_DE :
  ¬ (i < rows mat_var ∧ j < cols mat_var) →
  converter_step mat_DE mat_var vec_var (i, j) vec_DE = Raise IndexError.
Proof. intros Hout. unfold converter_step. by rewrite (getitem_Raise _ _ _ Hout). Qed.

Lemma set_order_remove_dups : set_order remove_dups.
Proof.
  intros l. split; [apply NoDup_remove_dups|]. intros x. apply elem_of_remove_dups.
Qed.

(** C2, amended. For [mat_DE] and [mat_var] of one shape that have an
    element, whatever the order the set is listed in: the state vector is
    the list of the distinct entries of [mat_var], of length their number,
    and so is the length of the derivative vector; every position of the
    derivative vector holds the [mat_DE] entry of a cell whose [mat_var]
    entry is the symbol at that position of the state vector; and when
    [mat_var] holds each symbol once, the derivative at the position of
    [mat_var[i,j]] is [mat_DE[i,j]]. *)
Theorem system_from_matrix_DE_round_trip (list_set : list expr → list expr)
    (mat_DE mat_var mat_input : Matrix expr) (constants : list (expr * expr)) :
  set_order list_set → shape mat_DE = shape mat_var → nonempty mat_DE →
  ∃ sys,
    system_from_matrix_DE list_set mat_DE mat_var mat_input constants = Ok sys ∧
    mat (state sys) = list_set (flatten (tolist mat_var)) ∧
    NoDup (mat (state sys)) ∧
    (∀ x, x ∈ mat (state sys) ↔ x ∈ flatten (tolist mat_var)) ∧
    shape (state sys) = (distinct_count (flatten (tolist mat_var)), 1) ∧
    shape (state_equation sys) = (distinct_count (flatten (tolist mat_var)), 1) ∧
    length (mat (state_equation sys)) = distinct_count (flatten (tolist mat_var)) ∧
    (∀ k sym, mat (state sys) !! k = Some sym →
       ∃ i j, i < rows mat_var ∧ j < cols mat_var ∧ entry mat_var i j = sym ∧
              mat (state_equation sys) !! k = Some (entry mat_DE i j)) ∧
    (NoDup (flatten (tolist mat_var)) →
     ∀ i j k, i < rows mat_var → j < cols mat_var →
       mat (state sys) !! k = Some (entry mat_var i j) →
       mat (state_equation sys) !! k = Some (entry mat_DE i j)).
Proof.
  intros Hset Hshape Hne. injection Hshape as Hrows Hcols.
  destruct (converter_returns list_set Hset mat_DE mat_var mat_input constants)
    as (vec_DE & Hsys & HshapeDE & Hlen & Hall); [done|lia..|].
  set (vec_var := list_set (flatten (tolist mat_var))) in *.
  destruct (Hset (flatten (tolist mat_var))) as [Hnd Hin]. fold vec_var in Hnd, Hin.
  assert (length vec_var = distinct_count (flatten (tolist mat_var))) as Hcount
    by (by apply length_set_order).
  assert (∀ k sym, vec_var !! k = Some sym →
    ∃ i j, i < rows mat_var ∧ j < cols mat_var ∧ entry mat_var i j = sym ∧
           mat vec_DE !! k = Some (entry mat_DE i j)) as Hpos.
  { intros k sym Hk.
    destruct (Hall k) as [(i & j & Hi & Hj & Hidx & Hlook)|[Hno _]].
    - by eapply lookup_lt_Some.
    - exists i, j. apply list_index_Some in Hidx.
      split_and!; [lia..| |done]. congruence.
    - assert (sym ∈ flatten (tolist mat_var)) as Hsym.
      { apply Hin. by eapply list_elem_of_lookup_2. }
      apply elem_of_flatten_tolist in Hsym as (i & j & Hi & Hj & ->).
      destruct (Hno i j); [lia..|]. by apply list_index_NoDup. }
  eexists. split; [exact Hsys|]. cbn [state state_equation mat].
  split; [done|]. split; [done|]. split; [done|].
  split; [unfold shape; cbn; by rewrite Hcount|].
  split; [by rewrite HshapeDE, Hcount|]. split; [by rewrite Hlen|].
  split; [done|].
  intros Hvar i j k Hi Hj Hk.
  destruct (Hpos k _ Hk) as (i' & j' & Hi' & Hj' & Heq & Hlook).
  apply entry_inj in Heq as [-> ->]; done.
Qed.

Lemma system_from_matrix_DE_round_trip_witness :
  set_order remove_dups ∧ shape DE_sample = shape var_sample ∧ nonempty DE_sample ∧
  ∃ sys,
    system_from_matrix_DE remove_dups DE_sample var_sample empty_matrix [] = Ok sys ∧
    mat (state sys) = [sym_a; sym_b; sym_c] ∧
    shape (state_equation sys) = (3, 1).
Proof.
  assert (nonempty DE_sample) as Hne by (by unfold nonempty).
  destruct (system_from_matrix_DE_round_trip remove_dups DE_sample var_sample
    empty_matrix [] set_order_remove_dups eq_refl Hne)
    as (sys & Hsys & Hstate & _ & _ & _ & Hshape & _).
  split; [exact set_order_remove_dups|]. split; [done|]. split; [done|].
  exists sys. split; [done|]. split; [done|]. exact Hshape.
Defined.

(** C2, as written, fails on matrices without an element: the iterator
    over [mat_DE] is refused and no system is returned, whatever the order
    of the set. *)
Lemma system_from_matrix_DE_empty_counterexample :
  shape empty_matrix = shape empty_matrix ∧
  ∀ list_set mat_input constants,
    system_from_matrix_DE list_set empty_matrix empty_matrix mat_input constants
    = Raise (ValueError ZeroSizedOperands).
Proof. split; [done|]. intros. reflexivity. Qed.

(** C3, amended. [system_from_matrix_DE] does not compare the shapes. For
    shapes that differ: a [mat_DE] without element is refused by the
    iterator; a [mat_DE] with an element that has no more rows and no more
    columns than [mat_var] gives a system, without any error; and a
    [mat_DE] with an element that has more rows or more columns than
    [mat_var] fails with IndexError, raised where [mat_var] is read. *)
Theorem system_from_matrix_DE_shapes_differ (list_set : list expr → list expr)
    (mat_DE mat_var mat_input : Matrix expr) (constants : list (expr * expr)) :
  set_order list_set → shape mat_DE ≠ shape mat_var →
  (¬ nonempty mat_DE →
     system_from_matrix_DE list_set mat_DE mat_var mat_input constants
     = Raise (ValueError ZeroSizedOperands)) ∧
  (nonempty mat_DE → rows mat_DE ≤ rows mat_var → cols mat_DE ≤ cols mat_var →
     ∃ sys, system_from_matrix_DE list_set mat_DE mat_var mat_input constants
            = Ok sys) ∧
  (nonempty mat_DE → rows mat_var < rows mat_DE ∨ cols mat_var < cols mat_DE →
     system_from_matrix_DE list_set mat_DE mat_var mat_input constants
     = Raise IndexError).
Proof.
  intros Hset _. split; [|split].
  - intros Hempty. unfold system_from_matrix_DE. by rewrite nditer_Raise.
  - intros Hne Hrows Hcols.
    destruct (converter_returns list_set Hset mat_DE mat_var mat_input constants)
      as (vec_DE & Hsys & _); [done..|]. by eexists.
  - intros Hne Hbig. unfold nonempty in Hne.
    pose (outside := λ cell : nat * nat,
      ¬ (cell.1 < rows mat_var ∧ cell.2 < cols mat_var)).
    destruct (first_with outside (cells (rows mat_DE) (cols mat_DE)))
      as (before & [i j] & after & Hcells & Hout & Hbefore).
    { apply Exists_exists. destruct Hbig as [Hbig|Hbig].
      - exists (rows mat_var, 0). split; [apply elem_of_cells; nia|].
        unfold outside. cbn. lia.
      - exists (0, cols mat_var). split; [apply elem_of_cells; nia|].
        unfold outside. cbn. lia. }
    destruct (converter_loop list_set Hset mat_DE mat_var before)
      as (vec_DE & Hloop & _).
    { intros i' j' Hin.
      assert ((i', j') ∈ cells (rows mat_DE) (cols mat_DE)) as Hin'
        by (rewrite Hcells; apply elem_of_app; by left).
      apply elem_of_cells in Hin'. rewrite Forall_forall in Hbefore.
      specialize (Hbefore _ Hin). unfold outside in Hbefore. cbn in Hbefore.
      destruct (decide (i' < rows mat_var ∧ j' < cols mat_var)); [lia|done]. }
    unfold system_from_matrix_DE. rewrite nditer_Ok by done.
    cbn [mbind result_bind]. rewrite Hcells, for_each_app, Hloop.
    cbn [mbind result_bind for_each].
    by rewrite (converter_step_outside mat_DE mat_var _ i j vec_DE Hout).
Qed.

Lemma system_from_matrix_DE_shapes_differ_witness :
  set_order remove_dups ∧ shape DE_small ≠ shape var_wide ∧
  ∃ sys, system_from_matrix_DE remove_dups DE_small var_wide empty_matrix [] = Ok sys.
Proof.
  assert (shape DE_small ≠ shape var_wide) as Hshape by done.
  destruct (system_from_matrix_DE_shapes_differ remove_dups DE_small var_wide
    empty_matrix [] set_order_remove_dups Hshape) as (_ & Hfits & _).
  split; [exact set_order_remove_dups|]. split; [done|].
  apply Hfits; [by unfold nonempty|cbn; lia..].
Defined.

(** C3, as written, fails: a one-cell [mat_DE] and a two-cell [mat_var]
    differ in shape, and a system is returned, whatever the order of the
    set. *)
Lemma system_from_matrix_DE_shape_counterexample :
  shape DE_small ≠ shape var_wide ∧
  ∀ list_set mat_input constants, set_order list_set →
    ∃ sys, system_from_matrix_DE list_set DE_small var_wide mat_input constants
           = Ok sys.
Proof.
  split; [done|]. intros list_set mat_input constants Hset.
  destruct (converter_returns list_set Hset DE_small var_wide mat_input constants)
    as (vec_DE & Hsys & _); [by unfold nonempty|cbn; lia..|]. by eexists.
Qed.

(** C10. For [mat_DE] and [mat_var] of one shape, whatever the order of
    the set: at every cell the read of [mat_var] succeeds and its entry is
    found in the list of state symbols, at a position inside the list; the
    converter never raises the error of a symbol that is not found, and the
    only error it can raise is the refusal of an iterator without
    element. *)
Theorem system_from_matrix_DE_lookup_succeeds (list_set : list expr → list expr)
    (mat_DE mat_var mat_input : Matrix expr) (constants : list (expr * expr)) :
  set_order list_set → shape mat_DE = shape mat_var →
  (∀ i j, i < rows mat_DE → j < cols mat_DE →
     ∃ idx, getitem mat_var i j = Ok (entry mat_var i j) ∧
            index (list_set (flatten (tolist mat_var))) (entry mat_var i j) = Ok idx ∧
            idx < length (list_set (flatten (tolist mat_var)))) ∧
  system_from_matrix_DE list_set mat_DE mat_var mat_input constants
  ≠ Raise (ValueError NotInList) ∧
  (∀ e, system_from_matrix_DE list_set mat_DE mat_var mat_input constants = Raise e →
        e = ValueError ZeroSizedOperands ∧ ¬ nonempty mat_DE).
Proof.
  intros Hset Hshape. injection Hshape as Hrows Hcols.
  assert (∀ e, system_from_matrix_DE list_set mat_DE mat_var mat_input constants
               = Raise e → e = ValueError ZeroSizedOperands ∧ ¬ nonempty mat_DE)
    as Herr.
  { intros e He. destruct (decide (nonempty mat_DE)) as [Hne|Hempty].
    - destruct (converter_returns list_set Hset mat_DE mat_var mat_input constants)
        as (vec_DE & Hsys & _); [done|lia..|]. congruence.
    - unfold system_from_matrix_DE in He. rewrite nditer_Raise in He by done.
      cbn in He. split; [congruence|done]. }
  split; [|split; [|done]].
  - intros i j Hi Hj.
    destruct (list_index_elem_of (entry mat_var i j)
      (list_set (flatten (tolist mat_var)))) as [idx Hidx].
    { apply (Hset (flatten (tolist mat_var))), elem_of_flatten_tolist.
      exists i, j. split_and!; [lia..|done]. }
    exists idx. split; [apply getitem_Ok; lia|].
    unfold index. rewrite Hidx. split; [done|].
    by apply list_index_Some, lookup_lt_Some in Hidx.
  - intros He. by destruct (Herr _ He).
Qed.

Lemma system_from_matrix_DE_lookup_succeeds_witness :
  set_order remove_dups ∧ shape DE_sample = shape var_sample ∧
  system_from_matrix_DE remove_dups DE_sample var_sample empty_matrix []
  ≠ Raise (ValueError NotInList).
Proof.
  split; [exact set_order_remove_dups|]. split; [done|].
  exact (proj1 (proj2 (system_from_matrix_DE_lookup_succeeds remove_dups DE_sample
    var_sample empty_matrix [] set_order_remove_dups eq_refl))).
Defined.

(** ** matrix_callable_from_vector_trajectory *)

Lemma cell_index_lt r c i j : i < r → j < c → i * c + j < r * c.
Proof.
  intros Hi Hj. assert ((i + 1) * c ≤ r * c) by (apply Nat.mul_le_mono_r; lia). lia.
Qed.

Lemma entry_zeros {A : Type} `{Inhabited A} (zero : A) r c i j :
  i < r → j < c → entry (zeros zero r c) i j = zero.
Proof.
  intros Hi Hj. unfold entry. cbn. apply list_lookup_total_correct.
  apply lookup_replicate_2. by apply cell_index_lt.
Qed.

Lemma tuple_of_Ok {X Y : Type} (f : X → result Y) (g : X → Y) (items : list X) :
  (∀ x, x ∈ items → f x = Ok (g x)) → tuple_of f items = Ok (g <$> items).
Proof.
  induction items as [|x items IH]; intros Hf; [done|].
  unfold tuple_of in *. cbn [collect]. rewrite Hf by left. cbn.
  rewrite IH by (intros y Hy; apply Hf; by right). done.
Qed.

Lemma column_of_index unraveled sym idx :
  list_index sym unraveled = Some idx → column_of unraveled sym = idx.
Proof. intros Hidx. unfold column_of. by rewrite Hidx. Qed.

Section trajectory.
Context {num : Type} `{Inhabited num}.
Variable zero : num.

Lemma entry_reconstructed unraveled raveled (values : list num) i j :
  i < rows raveled → j < cols raveled →
  entry (reconstructed unraveled raveled values) i j
  = values !!! column_of unraveled (entry raveled i j).
Proof.
  intros Hi Hj. unfold reconstructed.
  by rewrite (entry_flat (λ i j, values !!! column_of unraveled (entry raveled i j))).
Qed.

Lemma length_reconstructed unraveled raveled (values : list num) :
  length (mat (reconstructed unraveled raveled values))
  = rows raveled * cols raveled.
Proof. unfold reconstructed. cbn [mat]. apply length_flat. Qed.

Lemma matrix_callable_from_vector_trajectory_unfold
    (cft : list num → Matrix num → time_arg → ndarray) tt x unraveled raveled :
  matrix_callable_from_vector_trajectory zero cft tt x unraveled raveled
  = matrix_callable zero (cft tt x) (unraveled_list unraveled) raveled.
Proof. by destruct unraveled. Qed.

(** The loop on one matrix, over cells of the layout whose symbols are
    found: it ends well; the visited cells hold the value in the column of
    their symbol and the other cells hold the zero. *)
Lemma single_loop (values : list num) unraveled raveled (cs : list (nat * nat)) :
  length values = length unraveled →
  (∀ i j, (i, j) ∈ cs →
     i < rows raveled ∧ j < cols raveled ∧ entry raveled i j ∈ unraveled) →
  ∃ M,
    for_each cs (reconstruct_step (Array1 values) unraveled raveled)
      (Single (zeros zero (rows raveled) (cols raveled))) = Ok (Single M) ∧
    rows M = rows raveled ∧ cols M = cols raveled ∧
    length (mat M) = rows raveled * cols raveled ∧
    ∀ i j, i < rows raveled → j < cols raveled →
      entry M i j = if decide ((i, j) ∈ cs)
                    then values !!! column_of unraveled (entry raveled i j)
                    else zero.
Proof.
  intros Hlen Hcs.
  pose (Inv := λ (visited : list (nat * nat)) (r : matrix_value),
    ∃ M, r = Single M ∧
      rows M = rows raveled ∧ cols M = cols raveled ∧
      length (mat M) = rows raveled * cols raveled ∧
      ∀ i j, i < rows raveled → j < cols raveled →
        entry M i j = if decide ((i, j) ∈ visited)
                      then values !!! column_of unraveled (entry raveled i j)
                      else zero).
  destruct (for_each_invariant Inv cs
    (reconstruct_step (Array1 values) unraveled raveled)
    (Single (zeros zero (rows raveled) (cols raveled))))
    as (r & Hr & M & -> & HM); [| |by exists M].
  - exists (zeros zero (rows raveled) (cols raveled)).
    split; [done|]. split; [done|]. split; [done|].
    split; [apply length_zeros|]. intros i j Hi Hj.
    rewrite decide_False by apply not_elem_of_nil. by apply entry_zeros.
  - intros visited [i j] rest r Hitems (M & -> & Hrows & Hcols & HlenM & Hentry).
    destruct (Hcs i j) as (Hi & Hj & Hin).
    { rewrite Hitems. apply elem_of_app. right. left. }
    destruct (list_index_elem_of _ _ Hin) as [idx Hidx].
    assert (is_Some (values !! idx)) as [v Hv].
    { apply lookup_lt_is_Some. rewrite Hlen.
      by apply list_index_Some, lookup_lt_Some in Hidx. }
    unfold reconstruct_step. rewrite getitem_Ok by done. cbn.
    unfold index. rewrite Hidx. cbn. rewrite Hv. cbn.
    rewrite setitem_Ok by lia. cbn. eexists. split; [reflexivity|].
    eexists. split; [reflexivity|]. cbn [rows cols mat].
    split; [done|]. split; [done|]. split; [by rewrite length_insert|].
    intros i' j' Hi' Hj'.
    rewrite (entry_setitem M i j v i' j') by lia.
    rewrite Hentry by done. case_decide as Hij.
    + destruct Hij as [-> ->]. rewrite decide_True by (apply elem_of_app; right; left).
      rewrite (column_of_index _ _ _ Hidx). symmetry.
      by apply list_lookup_total_correct.
    + destruct (decide ((i', j') ∈ visited)) as [Hvis|Hvis].
      * by rewrite decide_True by (apply elem_of_app; by left).
      * rewrite decide_False; [done|]. intros Happ.
        apply elem_of_app in Happ as [?|Hone]; [done|].
        apply list_elem_of_singleton in Hone. simplify_eq. by apply Hij.
Qed.

(** On a layout that has an element and whose symbols are found, the
    closure applied to a time for which the callable gives the values of
    the symbols returns the rebuilt matrix. *)
Lemma matrix_callable_single (vc : time_arg → ndarray) unraveled raveled t
    (values : list num) :
  nonempty raveled → drawn_from raveled unraveled →
  initial_result zero raveled t
  = Single (zeros zero (rows raveled) (cols raveled)) →
  vc t = Array1 values → length values = length unraveled →
  matrix_callable zero vc unraveled raveled t
  = Ok (Single (reconstructed unraveled raveled values)).
Proof.
  intros Hne Hdrawn Hinit Hvc Hlen. unfold matrix_callable.
  rewrite nditer_Ok by done. cbn [mbind result_bind]. rewrite Hinit, Hvc.
  destruct (single_loop values unraveled raveled
    (cells (rows raveled) (cols raveled)) Hlen)
    as (M & -> & Hrows & Hcols & HlenM & Hentry).
  { intros i j Hin. apply elem_of_cells in Hin as [Hi Hj]. auto. }
  do 2 f_equal. apply matrix_ext; [done|done|by rewrite Hrows, Hcols| |].
  - by rewrite length_reconstructed.
  - intros i j Hi Hj. rewrite Hrows in Hi. rewrite Hcols in Hj.
    rewrite Hentry, entry_reconstructed by done.
    by rewrite decide_True by (by apply elem_of_cells).
Qed.

Lemma assign_stacked_array (Ms : list (Matrix num)) i j (vs : list num) :
  1 < length vs →
  assign_stacked Ms i j (ItemArray vs)
  = if bool_decide (length vs = length Ms)
    then tuple_of (λ Mx, setitem Mx.1 i j Mx.2) (zip Ms vs)
    else Raise (ValueError CouldNotBroadcast).
Proof. destruct vs as [|? [|? ?]]; cbn; [lia|lia|done]. Qed.

(** The loop on the stack of k matrices, the array holding one line of k
    values per symbol: it ends well, and in the matrix of position [l] the
    visited cells hold the value, at the time of position [l], of their
    symbol, and the other cells hold the zero. *)
Lemma stacked_loop (lines : list (list num)) unraveled raveled (k : nat)
    (cs : list (nat * nat)) :
  1 < k → length lines = length unraveled →
  Forall (λ vs, length vs = k) lines →
  (∀ i j, (i, j) ∈ cs →
     i < rows raveled ∧ j < cols raveled ∧ entry raveled i j ∈ unraveled) →
  ∃ Ms,
    for_each cs (reconstruct_step (Array2 lines) unraveled raveled)
      (Stacked (replicate k (zeros zero (rows raveled) (cols raveled))))
    = Ok (Stacked Ms) ∧
    length Ms = k ∧
    ∀ l M, Ms !! l = Some M →
      rows M = rows raveled ∧ cols M = cols raveled ∧
      length (mat M) = rows raveled * cols raveled ∧
      ∀ i j, i < rows raveled → j < cols raveled →
        entry M i j = if decide ((i, j) ∈ cs)
                      then values_at lines l
                             !!! column_of unraveled (entry raveled i j)
                      else zero.
Proof.
  intros Hk Hlen Hlines Hcs.
  pose (Inv := λ (visited : list (nat * nat)) (r : matrix_value),
    ∃ Ms, r = Stacked Ms ∧ length Ms = k ∧
      ∀ l M, Ms !! l = Some M →
        rows M = rows raveled ∧ cols M = cols raveled ∧
        length (mat M) = rows raveled * cols raveled ∧
        ∀ i j, i < rows raveled → j < cols raveled →
          entry M i j = if decide ((i, j) ∈ visited)
                        then values_at lines l
                               !!! column_of unraveled (entry raveled i j)
                        else zero).
  destruct (for_each_invariant Inv cs
    (reconstruct_step (Array2 lines) unraveled raveled)
    (Stacked (replicate k (zeros zero (rows raveled) (cols raveled)))))
    as (r & Hr & Ms & -> & HMs); [| |by exists Ms].
  - eexists. split; [reflexivity|]. split; [apply length_replicate|].
    intros l M HM. apply lookup_replicate in HM as [-> _].
    split; [done|]. split; [done|]. split; [apply length_zeros|].
    intros i j Hi Hj. rewrite decide_False by apply not_elem_of_nil.
    by apply entry_zeros.
  - intros visited [i j] rest r Hitems (Ms & -> & HlenMs & HMs).
    destruct (Hcs i j) as (Hi & Hj & Hin).
    { rewrite Hitems. apply elem_of_app. right. left. }
    destruct (list_index_elem_of _ _ Hin) as [idx Hidx].
    assert (idx < length lines) as Hlt.
    { rewrite Hlen. by apply list_index_Some, lookup_lt_Some in Hidx. }
    destruct (lookup_lt_is_Some_2 lines idx Hlt) as [vs Hvs].
    assert (length vs = k) as Hvsk.
    { rewrite Forall_forall in Hlines. apply Hlines.
      by eapply list_elem_of_lookup_2. }
    unfold reconstruct_step. rewrite getitem_Ok by done.
    cbn [mbind result_bind]. unfold index. rewrite Hidx.
    cbn [mbind result_bind array_getitem]. rewrite Hvs.
    cbn [mbind result_bind assign].
    rewrite assign_stacked_array by lia.
    rewrite bool_decide_true by lia.
    rewrite (tuple_of_Ok _ (λ Mx : Matrix num * num,
      mk_matrix (rows Mx.1) (cols Mx.1) (<[i * cols Mx.1 + j := Mx.2]> (mat Mx.1)))).
    2: { intros [M v] HMv. cbn. apply elem_of_zip_l in HMv.
         apply list_elem_of_lookup_1 in HMv as [l HM].
         destruct (HMs l M HM) as (Hrows & Hcols & _). apply setitem_Ok; lia. }
    cbn. eexists. split; [reflexivity|]. eexists. split; [reflexivity|].
    split; [rewrite length_fmap, length_zip; lia|].
    intros l M' HM'. rewrite list_lookup_fmap in HM'.
    destruct (zip Ms vs !! l) as [[M v]|] eqn:Hzip; [|done].
    cbn in HM'. injection HM' as <-.
    apply lookup_zip_with_Some in Hzip as (M0 & v0 & Heq & HM & Hv).
    injection Heq as -> ->.
    destruct (HMs l M0 HM) as (Hrows & Hcols & HlenM & Hentry).
    cbn [rows cols mat fst snd].
    split; [done|]. split; [done|]. split; [by rewrite length_insert|].
    intros i' j' Hi' Hj'.
    rewrite (entry_setitem M0 i j v0 i' j') by lia.
    rewrite Hentry by done. case_decide as Hij.
    + destruct Hij as [-> ->]. rewrite decide_True by (apply elem_of_app; right; left).
      rewrite (column_of_index _ _ _ Hidx). unfold values_at. symmetry.
      apply list_lookup_total_correct. rewrite list_lookup_fmap, Hvs. cbn.
      f_equal. by apply list_lookup_total_correct.
    + destruct (decide ((i', j') ∈ visited)) as [Hvis|Hvis].
      * by rewrite decide_True by (apply elem_of_app; by left).
      * rewrite decide_False; [done|]. intros Happ.
        apply elem_of_app in Happ as [?|Hone]; [done|].
        apply list_elem_of_singleton in Hone. simplify_eq. by apply Hij.
Qed.

(** On a layout that has an element and whose symbols are found, the
    closure applied to k > 1 times, for which the callable gives one line
    of k values per symbol, returns the stack of the k rebuilt matrices. *)
Lemma matrix_callable_stacked (vc : time_arg → ndarray) unraveled raveled
    (ts : list num) (lines : list (list num)) :
  nonempty raveled → drawn_from raveled unraveled →
  1 < length ts → vc (Sequence ts) = Array2 lines →
  length lines = length unraveled →
  Forall (λ vs, length vs = length ts) lines →
  matrix_callable zero vc unraveled raveled (Sequence ts)
  = Ok (Stacked ((λ l, reconstructed unraveled raveled (values_at lines l))
                   <$> seq 0 (length ts))).
Proof.
  intros Hne Hdrawn Hk Hvc Hlen Hlines. unfold matrix_callable.
  rewrite nditer_Ok by done. cbn [mbind result_bind]. rewrite Hvc.
  unfold initial_result. rewrite bool_decide_true by done.
  destruct (stacked_loop lines unraveled raveled (length ts)
    (cells (rows raveled) (cols raveled)) Hk Hlen Hlines)
    as (Ms & -> & HlenMs & HMs).
  { intros i j Hin. apply elem_of_cells in Hin as [Hi Hj]. auto. }
  do 2 f_equal. apply list_eq_same_length with (length ts);
    [by rewrite length_fmap, length_seq|done|].
  intros l M N Hl HM HN. rewrite list_lookup_fmap, lookup_seq_lt in HN by done.
  cbn in HN. injection HN as <-.
  destruct (HMs l M HM) as (Hrows & Hcols & HlenM & Hentry).
  apply matrix_ext; [done|done|by rewrite Hrows, Hcols| |].
  - by rewrite length_reconstructed.
  - intros i j Hi Hj. rewrite Hrows in Hi. rewrite Hcols in Hj.
    rewrite Hentry, entry_reconstructed by done.
    by rewrite decide_True by (by apply elem_of_cells).
Qed.
End trajectory.

Lemma drawn_from_raveled_sample : drawn_from raveled_sample [sym_a; sym_b; sym_c].
Proof.
  intros i j Hi Hj. cbn in Hi, Hj.
  assert (i = 0 ∨ i = 1) as [-> | ->] by lia;
    assert (j = 0 ∨ j = 1) as [-> | ->] by lia; vm_compute; repeat constructor.
Qed.

(** C1, amended. On a p by q layout that has an element (p, q > 0) and
    whose symbols are drawn from the unraveled order, given as a list or as
    a matrix: when the trajectory callable gives, at the time [t], the
    values of the n symbols, the returned callable applied to [t] gives the
    p by q matrix whose (i, j) entry is the value at the first position
    where the unraveled order holds [raveled[i, j]]. In particular, for the
    order [a, b, c], the values [1, 2, 3] and the layout [[a, b], [b, c]]
    the matrix is [[1, 2], [2, 3]]. *)
Theorem matrix_callable_scalar_time {num : Type} `{Inhabited num} (zero : num)
    (cft : list num → Matrix num → time_arg → ndarray)
    (tt : list num) (x : Matrix num) (t : num) :
  (∀ unraveled raveled values,
     nonempty raveled → drawn_from raveled (unraveled_list unraveled) →
     cft tt x (Scalar t) = Array1 values →
     length values = length (unraveled_list unraveled) →
     matrix_callable_from_vector_trajectory zero cft tt x unraveled raveled (Scalar t)
     = Ok (Single (reconstructed (unraveled_list unraveled) raveled values)) ∧
     shape (reconstructed (unraveled_list unraveled) raveled values) = shape raveled ∧
     ∀ i j, i < rows raveled → j < cols raveled →
       ∃ k, list_index (entry raveled i j) (unraveled_list unraveled) = Some k ∧
            unraveled_list unraveled !! k = Some (entry raveled i j) ∧
            values !! k
            = Some (entry (reconstructed (unraveled_list unraveled) raveled values) i j)) ∧
  (∀ v1 v2 v3 : num,
     cft tt x (Scalar t) = Array1 [v1; v2; v3] →
     matrix_callable_from_vector_trajectory zero cft tt x
       (UList [sym_a; sym_b; sym_c]) raveled_sample (Scalar t)
     = Ok (Single (mk_matrix 2 2 [v1; v2; v2; v3]))).
Proof.
  split.
  - intros unraveled raveled values Hne Hdrawn Hvc Hlen.
    rewrite matrix_callable_from_vector_trajectory_unfold.
    split; [by apply matrix_callable_single|]. split; [done|].
    intros i j Hi Hj.
    destruct (list_index_elem_of _ _ (Hdrawn i j Hi Hj)) as [k Hk].
    exists k. split; [done|]. split; [by apply list_index_Some|].
    rewrite entry_reconstructed, (column_of_index _ _ _ Hk) by done.
    apply list_lookup_lookup_total_lt. rewrite Hlen.
    by apply list_index_Some, lookup_lt_Some in Hk.
  - intros v1 v2 v3 Hvc. rewrite matrix_callable_from_vector_trajectory_unfold.
    by rewrite (matrix_callable_single zero _ _ raveled_sample (Scalar t) [v1; v2; v3]);
      [|by unfold nonempty|apply drawn_from_raveled_sample|..].
Qed.

Lemma matrix_callable_scalar_time_witness :
  nonempty raveled_sample ∧
  drawn_from raveled_sample (unraveled_list (UList [sym_a; sym_b; sym_c])) ∧
  hold_first [0%Z] x_sample (Scalar 0%Z) = Array1 [1; 2; 3]%Z ∧
  matrix_callable_from_vector_trajectory 0%Z hold_first [0%Z] x_sample
    (UList [sym_a; sym_b; sym_c]) raveled_sample (Scalar 0%Z)
  = Ok (Single (mk_matrix 2 2 [1; 2; 2; 3]%Z)).
Proof.
  assert (nonempty raveled_sample) as Hne by (by unfold nonempty).
  destruct (proj1 (matrix_callable_scalar_time 0%Z hold_first [0%Z] x_sample 0%Z)
    (UList [sym_a; sym_b; sym_c]) raveled_sample [1; 2; 3]%Z Hne
    drawn_from_raveled_sample eq_refl eq_refl) as (Hcall & _).
  split; [done|]. split; [exact drawn_from_raveled_sample|]. split; [done|].
  exact Hcall.
Defined.

(** C1, as written, fails on a layout without an element: its symbols are
    all drawn from the order, and the iterator over the layout is refused,
    whatever the trajectory and the time. *)
Lemma matrix_callable_scalar_empty_counterexample :
  drawn_from empty_matrix [sym_a; sym_b; sym_c] ∧
  ∀ (cft : list Z → Matrix Z → time_arg → ndarray) tt x unraveled (t : Z),
    matrix_callable_from_vector_trajectory 0%Z cft tt x unraveled empty_matrix
      (Scalar t)
    = Raise (ValueError ZeroSizedOperands).
Proof.
  split; [intros i j Hi; cbn in Hi; lia|].
  intros. rewrite matrix_callable_from_vector_trajectory_unfold. reflexivity.
Qed.

(** ** Sequences of times *)

(** For k > 1 times, when no line of the array has k values nor one, the
    call fails at the first cell. *)
Lemma stacked_first_cell {num : Type} `{Inhabited num} (zero : num)
    (vc : time_arg → ndarray) (unraveled : list expr) (raveled : Matrix expr)
    (ts : list num) (lines : list (list num)) :
  1 < length ts → nonempty raveled → drawn_from raveled unraveled →
  vc (Sequence ts) = Array2 lines →
  Forall (λ vs, length vs ≠ length ts ∧ length vs ≠ 1) lines →
  matrix_callable zero vc unraveled raveled (Sequence ts)
  = (if decide (column_of unraveled (entry raveled 0 0) < length lines)
     then Raise (ValueError CouldNotBroadcast) else Raise IndexError).
Proof.
  intros Hk Hne Hdrawn Hvc Hlines.
  unfold matrix_callable. rewrite nditer_Ok by done. cbn [mbind result_bind].
  rewrite Hvc. unfold initial_result. rewrite bool_decide_true by done.
  unfold nonempty in Hne.
  destruct (rows raveled) as [|r] eqn:Hr; [lia|].
  destruct (cols raveled) as [|c] eqn:Hc; [lia|].
  assert (cells (S r) (S c) = (0, 0) :: tail (cells (S r) (S c))) as -> by done.
  cbn [for_each].
  set (R := Stacked (replicate (length ts) (zeros zero (S r) (S c)))).
  assert (reconstruct_step (Array2 lines) unraveled raveled (0, 0) R
          = (if decide (column_of unraveled (entry raveled 0 0) < length lines)
             then Raise (ValueError CouldNotBroadcast) else Raise IndexError))
    as ->; [|by case_decide].
  unfold reconstruct_step. rewrite getitem_Ok by lia. cbn [mbind result_bind].
  destruct (list_index_elem_of (entry raveled 0 0) unraveled) as [idx Hidx].
  { apply Hdrawn; lia. }
  unfold index. rewrite Hidx, (column_of_index _ _ _ Hidx).
  cbn [mbind result_bind array_getitem].
  destruct (lines !! idx) as [vs|] eqn:Hvs.
  - rewrite decide_True by (by eapply lookup_lt_Some).
    rewrite Forall_forall in Hlines.
    destruct (Hlines vs) as [Hnk Hn1]; [by eapply list_elem_of_lookup_2|].
    unfold R. cbn [mbind result_bind assign].
    assert (assign_stacked (replicate (length ts) (zeros zero (S r) (S c))) 0 0
              (ItemArray vs) = Raise (ValueError CouldNotBroadcast)) as ->; [|done].
    destruct vs as [|v1 [|v2 vs]]; [|done|].
    + cbn. rewrite bool_decide_false; [done|]. rewrite length_replicate. lia.
    + rewrite assign_stacked_array by (cbn; lia).
      rewrite bool_decide_false; [done|]. by rewrite length_replicate.
  - rewrite decide_False by (apply lookup_ge_None in Hvs; lia). done.
Qed.

(** C4. For k > 1 times whose array is laid out as the samples are, one
    line per time holding the values of the n symbols, the closure does not
    stack one rebuilt matrix per time: it reads [vector_result[idx]], the
    line of the time of position [idx], as the line of the symbol of column
    [idx]. On a layout that has an element and whose symbols are found:
    for n = k it returns a stack of k matrices of the shape of the layout,
    but the matrix of position [l] holds, at the cell of a symbol of
    column [c], the value at the time of position [c] of the symbol of
    column [l], where the rebuilt matrix of the time of position [l] holds
    the value at this time of the symbol of column [c]; for n different
    from k and from 1 it fails at the first cell and returns nothing. *)
Theorem matrix_callable_time_major {num : Type} `{Inhabited num} (zero : num)
    (cft : list num → Matrix num → time_arg → ndarray)
    (tt : list num) (x : Matrix num) (unraveled : unraveled_arg)
    (raveled : Matrix expr) (ts : list num) (lines : list (list num)) :
  1 < length ts → nonempty raveled →
  drawn_from raveled (unraveled_list unraveled) →
  cft tt x (Sequence ts) = Array2 lines →
  length lines = length ts →
  Forall (λ vs, length vs = length (unraveled_list unraveled)) lines →
  (length (unraveled_list unraveled) = length ts →
   ∃ Ms,
     matrix_callable_from_vector_trajectory zero cft tt x unraveled raveled
       (Sequence ts) = Ok (Stacked Ms) ∧
     length Ms = length ts ∧
     ∀ l i j, l < length ts → i < rows raveled → j < cols raveled →
       ∃ M, Ms !! l = Some M ∧ shape M = shape raveled ∧
         getitem M i j
         = Ok (sample_value lines
                 (column_of (unraveled_list unraveled) (entry raveled i j)) l) ∧
         entry (reconstructed (unraveled_list unraveled) raveled (lines !!! l)) i j
         = sample_value lines l
             (column_of (unraveled_list unraveled) (entry raveled i j))) ∧
  (length (unraveled_list unraveled) ≠ length ts →
   length (unraveled_list unraveled) ≠ 1 →
   matrix_callable_from_vector_trajectory zero cft tt x unraveled raveled
     (Sequence ts) = Raise (ValueError CouldNotBroadcast) ∨
   matrix_callable_from_vector_trajectory zero cft tt x unraveled raveled
     (Sequence ts) = Raise IndexError).
Proof.
  intros Hk Hne Hdrawn Hvc Hlen Hlines.
  rewrite matrix_callable_from_vector_trajectory_unfold.
  set (ul := unraveled_list unraveled) in *. split.
  - intros Hnk.
    rewrite (matrix_callable_stacked zero (cft tt x) ul raveled ts lines);
      [|done|done|done|done|lia|by rewrite <- Hnk].
    eexists. split; [reflexivity|]. split; [by rewrite length_fmap, length_seq|].
    intros l i j Hl Hi Hj. eexists.
    split; [by rewrite list_lookup_fmap, lookup_seq_lt|]. split; [done|].
    rewrite getitem_Ok by done. rewrite !entry_reconstructed by done.
    split; [|done]. f_equal. unfold values_at, sample_value.
    destruct (list_index_elem_of _ _ (Hdrawn i j Hi Hj)) as [idx Hidx].
    rewrite (column_of_index _ _ _ Hidx).
    assert (idx < length lines) as Hlt.
    { apply list_index_Some, lookup_lt_Some in Hidx. lia. }
    apply list_lookup_total_correct.
    by rewrite list_lookup_fmap, (list_lookup_lookup_total_lt lines idx).
  - intros Hnk Hn1.
    rewrite (stacked_first_cell zero (cft tt x) ul raveled ts lines);
      [case_decide; [by left|by right]|done..|].
    eapply Forall_impl; [exact Hlines|]. intros vs Hvs. cbn in Hvs. lia.
Qed.

Lemma matrix_callable_time_major_witness :
  1 < length [0; 1]%Z ∧ nonempty raveled_row ∧
  drawn_from raveled_row (unraveled_list (UList [sym_a; sym_b])) ∧
  sample_rows [0; 1]%Z x_two (Sequence [0; 1]%Z) = Array2 [[1; 2]; [3; 4]]%Z ∧
  matrix_callable_from_vector_trajectory 0%Z sample_rows [0; 1]%Z x_two
    (UList [sym_a; sym_b]) raveled_row (Sequence [0; 1]%Z)
  = Ok (Stacked [mk_matrix 1 2 [1; 3]%Z; mk_matrix 1 2 [2; 4]%Z]) ∧
  matrix_callable_from_vector_trajectory 0%Z sample_rows [0; 1]%Z x_two
    (UList [sym_a; sym_b]) raveled_row (Scalar 0%Z)
  = Ok (Single (mk_matrix 1 2 [1; 2]%Z)) ∧
  matrix_callable_from_vector_trajectory 0%Z sample_rows [0; 1]%Z x_two
    (UList [sym_a; sym_b]) raveled_row (Scalar 1%Z)
  = Ok (Single (mk_matrix 1 2 [3; 4]%Z)).
Proof.
  assert (1 < length [0; 1]%Z) as Hk by (cbn; lia).
  assert (nonempty raveled_row) as Hne by (by unfold nonempty).
  assert (drawn_from raveled_row (unraveled_list (UList [sym_a; sym_b]))) as Hdrawn.
  { intros i j Hi Hj. cbn in Hi, Hj. assert (i = 0) as -> by lia.
    assert (j = 0 ∨ j = 1) as [-> | ->] by lia; vm_compute; repeat constructor. }
  split; [done|]. split; [done|]. split; [exact Hdrawn|]. split; [done|].
  split; [|by split].
  destruct (proj1 (matrix_callable_time_major 0%Z sample_rows [0; 1]%Z x_two
    (UList [sym_a; sym_b]) raveled_row [0; 1]%Z [[1; 2]; [3; 4]]%Z
    Hk Hne Hdrawn eq_refl eq_refl ltac:(by repeat constructor)) eq_refl)
    as (Ms & HMs & _).
  rewrite HMs. symmetry. rewrite <- HMs. reflexivity.
Defined.

(** ** Symbols that are not found *)







(** The result before the loop has the form the time argument asks for. *)
Lemma initial_well_shaped {num : Type} (zero : num) (raveled : Matrix expr)
    (t : time_arg) :
  well_shaped raveled t (initial_result zero raveled t).
Proof.
  destruct t as [t|ts]; cbn; [done|].
  destruct (decide (1 < length ts)) as [Hk|Hk].
  - rewrite bool_decide_true by done. cbn [well_shaped stack_size].
    rewrite bool_decide_true by done. rewrite length_replicate.
    split; [done|]. by apply Forall_replicate.
  - rewrite bool_decide_false by done. cbn [well_shaped stack_size].
    by rewrite bool_decide_false by done.
Qed.

(** The assignment of an item that fits succeeds and keeps the form of the
    result. *)
Lemma assign_fits {num : Type} `{Inhabited num} (raveled : Matrix expr)
    (t : time_arg) (r : @matrix_value num) (i j : nat) (v : array_item) :
  well_shaped raveled t r → i < rows raveled → j < cols raveled → fits t v →
  ∃ r', assign r i j v = Ok r' ∧ well_shaped raveled t r'.
Proof.
  destruct r as [M|Ms]; cbn [well_shaped assign].
  - intros (Ht & Hr & Hc) Hi Hj Hfit.
    assert (∃ x, assign_single M i j v = setitem M i j x) as [x ->].
    { destruct v as [x|vs]; [by eexists|]. cbn in Hfit. rewrite Ht in Hfit.
      destruct Hfit as [Hone|?]; [|done].
      destruct vs as [|x [|y vs]]; try done. by eexists. }
    rewrite setitem_Ok by lia. cbn. eexists. split; [done|]. done.
  - intros (Ht & Hall) Hi Hj Hfit. rewrite Forall_forall in Hall.
    assert ((∃ x, assign_stacked Ms i j v = tuple_of (λ M, setitem M i j x) Ms) ∨
            (∃ vs, length vs = length Ms ∧
               assign_stacked Ms i j v
               = tuple_of (λ Mx, setitem Mx.1 i j Mx.2) (zip Ms vs))) as [[x ->]|Hzip].
    { destruct v as [x|vs]; [left; by eexists|]. cbn in Hfit. rewrite Ht in Hfit.
      destruct vs as [|x [|y vs]]; [right|left; by eexists|right].
      - destruct Hfit as [?|[= Hlen]]; [done|]. exists []. split; [done|].
        cbn. by rewrite bool_decide_true.
      - destruct Hfit as [?|[= Hlen]]; [done|]. exists (x :: y :: vs).
        split; [done|]. rewrite assign_stacked_array by (cbn; lia).
        by rewrite bool_decide_true. }
    + rewrite (tuple_of_Ok _ (λ M : Matrix num,
        mk_matrix (rows M) (cols M) (<[i * cols M + j := x]> (mat M)))).
      2: { intros M HM. destruct (Hall M HM). apply setitem_Ok; lia. }
      cbn. eexists. split; [reflexivity|]. cbn. rewrite length_fmap.
      split; [done|]. apply Forall_fmap, Forall_forall. intros M HM.
      cbn. by apply Hall.
    + destruct Hzip as (vs & Hlen & ->).
      rewrite (tuple_of_Ok _ (λ Mx : Matrix num * num,
        mk_matrix (rows Mx.1) (cols Mx.1) (<[i * cols Mx.1 + j := Mx.2]> (mat Mx.1)))).
      2: { intros [M x] HM. apply elem_of_zip_l in HM. destruct (Hall M HM).
           cbn. apply setitem_Ok; lia. }
      cbn. eexists. split; [reflexivity|]. cbn. rewrite length_fmap, length_zip.
      split; [rewrite Ht; f_equal; lia|]. apply Forall_fmap, Forall_forall.
      intros [M x] HM. apply elem_of_zip_l in HM. cbn. by apply Hall.
Qed.

(** The loop over cells whose symbols are found ends well when the array
    gives, for each of them, an item that fits. *)
Lemma reconstruct_loop_returns {num : Type} `{Inhabited num} (zero : num)
    (a : ndarray) (unraveled : list expr) (raveled : Matrix expr) (t : time_arg)
    (cs : list (nat * nat)) :
  assignable unraveled raveled t a →
  (∀ i j, (i, j) ∈ cs →
     i < rows raveled ∧ j < cols raveled ∧ entry raveled i j ∈ unraveled) →
  ∃ r, for_each cs (reconstruct_step a unraveled raveled)
         (initial_result zero raveled t) = Ok r.
Proof.
  intros Hassign Hcs.
  destruct (for_each_invariant (λ _ r, well_shaped raveled t r) cs
    (reconstruct_step a unraveled raveled) (initial_result zero raveled t))
    as (r & Hr & _); [apply initial_well_shaped| |by exists r].
  intros visited [i j] rest r Hitems Hshaped.
  destruct (Hcs i j) as (Hi & Hj & Hin).
  { rewrite Hitems. apply elem_of_app. right. left. }
  destruct (Hassign i j Hi Hj Hin) as (v & Hv & Hfit).
  destruct (list_index_elem_of _ _ Hin) as [idx Hidx].
  rewrite (column_of_index _ _ _ Hidx) in Hv.
  unfold reconstruct_step. rewrite getitem_Ok by done. cbn [mbind result_bind].
  unfold index. rewrite Hidx. cbn [mbind result_bind]. rewrite Hv.
  cbn [mbind result_bind]. by apply assign_fits.
Qed.




(** * Further properties *)

(** ** construct_explicit_matrix: the full and the symmetric matrix *)

Lemma Matrix_of_rows_flat {A : Type} (f : nat → nat → A) (n m : nat) :
  0 < n → 0 < m →
  Matrix_of_rows ((λ i : nat, f i <$> seq 0 m) <$> seq 0 n)
  = mk_matrix n m (i ← seq 0 n; f i <$> seq 0 m).
Proof.
  intros Hn Hm. unfold Matrix_of_rows.
  assert (from_option length 0 (head ((λ i : nat, f i <$> seq 0 m) <$> seq 0 n)) = m)
    as ->.
  { destruct n; [lia|]. cbn. by rewrite length_fmap, length_seq. }
  rewrite decide_False by lia. f_equal.
  - by rewrite length_fmap, length_seq.
  - by rewrite list_join_bind, list_fmap_bind.
Qed.

(** Without rows, or with rows that have no element, the engine makes the
    matrix without rows and columns. *)
Lemma Matrix_of_rows_empty {A : Type} (f : nat → nat → A) (n m : nat) :
  n = 0 ∨ m = 0 →
  Matrix_of_rows ((λ i : nat, f i <$> seq 0 m) <$> seq 0 n) = mk_matrix 0 0 [].
Proof.
  intros Hnm. unfold Matrix_of_rows.
  assert (from_option length 0 (head ((λ i : nat, f i <$> seq 0 m) <$> seq 0 n)) = 0)
    as ->.
  { destruct Hnm as [-> | ->]; [done|]. by destruct n. }
  rewrite decide_True by done. f_equal.
  destruct Hnm as [-> | ->]; [done|].
  induction (seq 0 n) as [|i l IH]; [done|]. exact IH.
Qed.

(** The rows of fresh symbols that both the plain and the symmetric branch
    start from. *)
Lemma builder_rows (name : string) (n m : nat) (dynamic : bool) (kwass : kwargs) :
  one_symbol_name name = true → assumptions_only kwass = true →
  comprehension (λ j,
    comprehension (λ i, (if dynamic then dynamicsymbols else symbols)
                          (element_name name (j + 1) (i + 1)) kwass) (range 0 m))
    (range 0 n)
  = Some (Ok ((λ j, element name dynamic kwass j <$> seq 0 m) <$> seq 0 n)).
Proof.
  intros Hname Hkw. unfold range. rewrite !Nat.sub_0_r.
  apply comprehension_Ok. intros j _.
  apply comprehension_Ok. intros i _. by apply symbol_func_element.
Qed.

(** X3. For a base name that the symbol function reads as the name of one
    symbol and keyword arguments that only qualify the symbol, without the
    diagonal and the symmetric flag: for n, m > 0 the builder returns the
    n by m matrix whose entry of row i and column j is the symbol named
    [name_(i+1)(j+1)], of the family the dynamic flag selects; for n = 0 or
    m = 0 it returns the matrix without rows and columns. *)
Theorem construct_explicit_matrix_plain (name : string) (n m : nat)
    (dynamic : bool) (kwass : kwargs) :
  one_symbol_name name = true → assumptions_only kwass = true →
  ∃ M,
    construct_explicit_matrix name n m false false dynamic kwass = Some (Ok M) ∧
    shape M = (if decide (n = 0 ∨ m = 0) then (0, 0) else (n, m)) ∧
    ∀ i j, i < n → j < m →
      getitem M i j = Ok (element name dynamic kwass i j) ∧
      getitem M i j ≠ Ok (Integer 0).
Proof.
  intros Hname Hkw. unfold construct_explicit_matrix. rewrite andb_false_r.
  rewrite builder_rows by done. cbn.
  destruct (decide (n = 0 ∨ m = 0)) as [Hnm|Hnm].
  - rewrite (Matrix_of_rows_empty (element name dynamic kwass)) by done.
    eexists. split; [reflexivity|]. split; [done|]. intros i j Hi Hj. lia.
  - rewrite (Matrix_of_rows_flat (element name dynamic kwass)) by lia.
    eexists. split; [reflexivity|]. split; [done|].
    intros i j Hi Hj. rewrite getitem_Ok by done.
    rewrite (entry_flat (element name dynamic kwass)) by done.
    split; [done|]. intros [= Heq]. by apply symbol_ne_zero in Heq.
Qed.

Lemma construct_explicit_matrix_plain_witness :
  one_symbol_name "a" = true ∧ assumptions_only [] = true ∧
  construct_explicit_matrix "a" 2 3 false false true []
  = Some (Ok (mk_matrix 2 3
      [AppliedUndef "a_11" []; AppliedUndef "a_12" []; AppliedUndef "a_13" [];
       AppliedUndef "a_21" []; AppliedUndef "a_22" []; AppliedUndef "a_23" []])).
Proof.
  split; [done|]. split; [done|].
  destruct (construct_explicit_matrix_plain "a" 2 3 true [] eq_refl eq_refl)
    as (M & HM & _).
  rewrite HM. symmetry. rewrite <- HM. reflexivity.
Defined.

(** The names of two cells are different when the rows and columns are
    numbered with one digit. *)
Lemma element_name_inj_digits (name : string) (r c r' c' : nat) :
  0 < r ≤ 9 → 0 < c ≤ 9 → 0 < r' ≤ 9 → 0 < c' ≤ 9 →
  element_name name r c = element_name name r' c' → r = r' ∧ c = c'.
Proof.
  intros Hr Hc Hr' Hc' Heq. unfold element_name in Heq.
  apply (inj (String.append name)) in Heq.
  apply (inj (String.append "_")) in Heq.
  assert (∀ k, 0 < k ≤ 9 → String.length (pretty k) = 1) as Hdigit.
  { intros k Hk.
    assert (k = 1 ∨ k = 2 ∨ k = 3 ∨ k = 4 ∨ k = 5 ∨ k = 6 ∨ k = 7 ∨ k = 8 ∨ k = 9)
      as Hcases by lia.
    by repeat destruct Hcases as [->|Hcases]; subst. }
  assert (pretty r = pretty r') as Hpr.
  { eapply append_eq_length; [|exact Heq]. by rewrite !Hdigit. }
  rewrite Hpr in Heq. apply (inj (String.append (pretty r'))) in Heq.
  split; by apply (inj pretty).
Qed.

(** The plain matrix, for n, m > 0. *)
Lemma plain_matrix (name : string) (n m : nat) (dynamic : bool) (kwass : kwargs) :
  one_symbol_name name = true → assumptions_only kwass = true → 0 < n → 0 < m →
  construct_explicit_matrix name n m false false dynamic kwass
  = Some (Ok (mk_matrix n m (i ← seq 0 n; element name dynamic kwass i <$> seq 0 m))).
Proof.
  intros Hname Hkw Hn Hm. unfold construct_explicit_matrix. rewrite andb_false_r.
  rewrite builder_rows by done. cbn.
  by rewrite (Matrix_of_rows_flat (element name dynamic kwass)) by lia.
Qed.

(** X4. The naming scheme tells the cells apart only below ten rows and
    columns, as the docstring warns. For a base name that the symbol
    function reads as the name of one symbol and keyword arguments that
    only qualify the symbol: for n, m <= 9 the plain matrix is returned
    and its entries are pairwise different symbols; from eleven rows and
    columns on, it is returned and its cells (1, 11) and (11, 1) hold the
    same symbol [name_111]. *)
Theorem construct_explicit_matrix_names (name : string) (n m : nat)
    (dynamic : bool) (kwass : kwargs) :
  one_symbol_name name = true → assumptions_only kwass = true →
  ∃ M,
    construct_explicit_matrix name n m false false dynamic kwass = Some (Ok M) ∧
    (n ≤ 9 → m ≤ 9 →
     ∀ i j i' j', i < n → j < m → i' < n → j' < m →
       getitem M i j = getitem M i' j' → i = i' ∧ j = j') ∧
    (11 ≤ n → 11 ≤ m →
     getitem M 0 10 = getitem M 10 0 ∧
     getitem M 0 10 = Ok (element name dynamic kwass 0 10)).
Proof.
  intros Hname Hkw.
  destruct (decide (n = 0 ∨ m = 0)) as [Hnm|Hnm].
  { unfold construct_explicit_matrix. rewrite andb_false_r.
    rewrite builder_rows by done. cbn. eexists. split; [reflexivity|].
    split; intros; lia. }
  rewrite plain_matrix by (done || lia). eexists. split; [reflexivity|].
  set (M := mk_matrix n m _).
  assert (∀ i j, i < n → j < m → getitem M i j = Ok (element name dynamic kwass i j))
    as Hentry.
  { intros i j Hi Hj. rewrite getitem_Ok by done. unfold M.
    by rewrite (entry_flat (element name dynamic kwass)). }
  split.
  - intros Hn Hm i j i' j' Hi Hj Hi' Hj' Heq.
    rewrite !Hentry in Heq by done. unfold element in Heq.
    assert (element_name name (i + 1) (j + 1) = element_name name (i' + 1) (j' + 1))
      as Heq' by (destruct dynamic; by simplify_eq).
    apply element_name_inj_digits in Heq'; lia.
  - intros Hn Hm. rewrite !Hentry by lia. split; [|done].
    unfold element, element_name. do 3 f_equal.
Qed.

Lemma construct_explicit_matrix_names_witness :
  one_symbol_name "a" = true ∧ assumptions_only [] = true ∧
  ∃ M, construct_explicit_matrix "a" 2 3 false false false [] = Some (Ok M) ∧
    ∀ i j i' j', i < 2 → j < 3 → i' < 2 → j' < 3 →
      getitem M i j = getitem M i' j' → i = i' ∧ j = j'.
Proof.
  split; [done|]. split; [done|].
  destruct (construct_explicit_matrix_names "a" 2 3 false [] eq_refl eq_refl)
    as (M & HM & Hsmall & _).
  exists M. split; [exact HM|]. apply Hsmall; lia.
Defined.

(** The loop of the symmetric branch, from the full matrix of symbols:
    it ends well and leaves, below the diagonal, the symbol of the
    mirrored cell. *)
Lemma symmetric_loop (P : nat → nat → expr) (n : nat) :
  ∃ M,
    for_each (range 1 n) (λ i matrix,
      for_each (range 0 i) (λ j matrix,
        v ← getitem matrix j i; setitem matrix i j v) matrix)
      (mk_matrix n n (i ← seq 0 n; P i <$> seq 0 n)) = Ok M ∧
    rows M = n ∧ cols M = n ∧
    ∀ a b, a < n → b < n →
      entry M a b = if decide (b < a) then P b a else P a b.
Proof.
  pose (Inv := λ (rows_done : list nat) (M : Matrix expr),
    rows M = n ∧ cols M = n ∧ length (mat M) = n * n ∧
    ∀ a b, a < n → b < n →
      entry M a b = if decide (b < a ∧ a ∈ rows_done) then P b a else P a b).
  destruct (for_each_invariant Inv (range 1 n)
    (λ i matrix, for_each (range 0 i) (λ j matrix,
       v ← getitem matrix j i; setitem matrix i j v) matrix)
    (mk_matrix n n (i ← seq 0 n; P i <$> seq 0 n)))
    as (M & HM & Hrows & Hcols & _ & Hentry).
  - split; [done|]. split; [done|]. split; [apply length_flat|].
    intros a b Ha Hb. rewrite (entry_flat P) by done.
    rewrite decide_False; [done|]. intros [_ Hin]. by apply elem_of_nil in Hin.
  - intros rows_done i rest M Hitems (Hrows & Hcols & Hlen & Hentry).
    assert (1 ≤ i < n) as Hi.
    { assert (i ∈ range 1 n) as Hin
        by (rewrite Hitems; apply elem_of_app; right; left).
      unfold range in Hin. apply elem_of_seq in Hin. lia. }
    pose (Inv' := λ (cols_done : list nat) (M : Matrix expr),
      rows M = n ∧ cols M = n ∧ length (mat M) = n * n ∧
      ∀ a b, a < n → b < n →
        entry M a b
        = if decide (b < a ∧ (a ∈ rows_done ∨ (a = i ∧ b ∈ cols_done)))
          then P b a else P a b).
    destruct (for_each_invariant Inv' (range 0 i)
      (λ j matrix, v ← getitem matrix j i; setitem matrix i j v) M)
      as (M' & HM' & Hrows' & Hcols' & Hlen' & Hentry').
    + split; [done|]. split; [done|]. split; [done|].
      intros a b Ha Hb. rewrite Hentry by done.
      apply decide_ext. split; [naive_solver|].
      intros [Hba [?|[_ Hin]]]; [done|]. by apply elem_of_nil in Hin.
    + intros cols_done j rest' M0 Hitems' (Hr0 & Hc0 & Hl0 & He0).
      assert (j < i) as Hj.
      { assert (j ∈ range 0 i) as Hin
          by (rewrite Hitems'; apply elem_of_app; right; left).
        unfold range in Hin. apply elem_of_seq in Hin. lia. }
      rewrite getitem_Ok by lia. cbn [mbind result_bind].
      rewrite setitem_Ok by lia. eexists. split; [reflexivity|].
      split; [done|]. split; [done|].
      split; [cbn [mat]; by rewrite length_insert|].
      intros a b Ha Hb. rewrite (entry_setitem M0 i j _ a b) by lia.
      rewrite !He0 by lia. case_decide as Hab.
      * destruct Hab as [-> ->].
        rewrite (decide_False (P := i < j ∧ _)) by lia.
        rewrite decide_True; [done|]. split; [done|]. right. split; [done|].
        apply elem_of_app. right. left.
      * apply decide_ext. split.
        -- intros [Hba [?|[-> Hin]]]; (split; [done|]); [by left|].
           right. split; [done|]. apply elem_of_app. by left.
        -- intros [Hba [?|[-> Hin]]]; (split; [done|]); [by left|].
           apply elem_of_app in Hin as [Hin|Hin]; [by right|].
           apply list_elem_of_singleton in Hin. subst. destruct Hab. done.
    + exists M'. split; [exact HM'|]. split; [done|]. split; [done|].
      split; [done|]. intros a b Ha Hb. rewrite Hentry' by done.
      apply decide_ext. split.
      * intros [Hba [?|[-> Hin]]]; (split; [done|]); apply elem_of_app;
          [by left|right; left].
      * intros [Hba Hin]. split; [done|].
        apply elem_of_app in Hin as [?|Hin]; [by left|].
        apply list_elem_of_singleton in Hin. subst. right. split; [done|].
        unfold range. apply elem_of_seq. lia.
  - exists M. split; [exact HM|]. split; [done|]. split; [done|].
    intros a b Ha Hb. rewrite Hentry by done. apply decide_ext.
    split; [naive_solver|]. intros Hba. split; [done|].
    unfold range. apply elem_of_seq. lia.
Qed.

(** X5. For a base name that the symbol function reads as the name of one
    symbol and keyword arguments that only qualify the symbol, with the
    symmetric flag, without the diagonal flag and for n = m, the builder
    returns an n by n matrix [M] with [M[i, j] = M[j, i]] for all i and j:
    the cells on and above the diagonal hold their own symbol
    [name_(i+1)(j+1)], and a cell below the diagonal holds the symbol of
    the mirrored cell. *)
Theorem construct_explicit_matrix_symmetric (name : string) (n : nat)
    (dynamic : bool) (kwass : kwargs) :
  one_symbol_name name = true → assumptions_only kwass = true →
  ∃ M,
    construct_explicit_matrix name n n true false dynamic kwass = Some (Ok M) ∧
    shape M = (n, n) ∧
    (∀ i j, i < n → j < n →
       getitem M i j = Ok (element name dynamic kwass (i `min` j) (i `max` j))) ∧
    (∀ i j, i < n → j < n → getitem M i j = getitem M j i).
Proof.
  intros Hname Hkw. unfold construct_explicit_matrix.
  rewrite bool_decide_false by (intros Hne; by apply Hne). cbn [andb orb].
  rewrite builder_rows by done. cbn [fmap option_fmap option_map mbind result_bind].
  destruct (decide (n = 0)) as [->|Hn].
  - eexists. split; [reflexivity|]. split; [done|]. split; intros i j Hi; lia.
  - rewrite (Matrix_of_rows_flat (element name dynamic kwass)) by lia.
    destruct (symmetric_loop (element name dynamic kwass) n)
      as (M & HM & Hrows & Hcols & Hentry).
    exists M. split; [by rewrite HM|]. split; [unfold shape; congruence|].
    assert (∀ i j, i < n → j < n →
      getitem M i j = Ok (element name dynamic kwass (i `min` j) (i `max` j)))
      as Hget.
    { intros i j Hi Hj. rewrite getitem_Ok by lia. rewrite Hentry by done.
      case_decide; do 2 f_equal; lia. }
    split; [done|]. intros i j Hi Hj. rewrite !Hget by done.
    do 2 f_equal; lia.
Qed.

Lemma construct_explicit_matrix_symmetric_witness :
  one_symbol_name "a" = true ∧ assumptions_only [] = true ∧
  construct_explicit_matrix "a" 2 2 true false false []
  = Some (Ok (mk_matrix 2 2
      [Symbol "a_11" []; Symbol "a_12" []; Symbol "a_12" []; Symbol "a_22" []])).
Proof.
  split; [done|]. split; [done|].
  destruct (construct_explicit_matrix_symmetric "a" 2 false [] eq_refl eq_refl)
    as (M & HM & _).
  rewrite HM. symmetry. rewrite <- HM. reflexivity.
Defined.

(** ** system_from_matrix_DE: the last write and the order of the set *)

Section converter_last.
Variable list_set : list expr → list expr.
Hypothesis Hset : set_order list_set.

(** The loop of the converter keeps, at each position, the derivative of
    the last visited cell whose state symbol has this position. *)
Lemma converter_loop_last (mat_DE mat_var : Matrix expr) (cs : list (nat * nat)) :
  (∀ i j, (i, j) ∈ cs →
     i < rows mat_DE ∧ j < cols mat_DE ∧ i < rows mat_var ∧ j < cols mat_var) →
  let vec_var := list_set (flatten (tolist mat_var)) in
  ∃ vec_DE,
    for_each cs (converter_step mat_DE mat_var vec_var)
      (zeros (Integer 0) (length vec_var) 1) = Ok vec_DE ∧
    ∀ k, k < length vec_var →
      mat vec_DE !! k
      = Some (from_option (λ cell, entry mat_DE cell.1 cell.2) (Integer 0)
                (last (filter (λ cell, list_index (entry mat_var cell.1 cell.2)
                                         vec_var = Some k) cs))).
Proof.
  intros Hcs vec_var. set (n := length vec_var).
  pose (Inv := λ (visited : list (nat * nat)) (M : Matrix expr),
    shape M = (n, 1) ∧ length (mat M) = n ∧
    ∀ k, k < n →
      mat M !! k
      = Some (from_option (λ cell, entry mat_DE cell.1 cell.2) (Integer 0)
                (last (filter (λ cell, list_index (entry mat_var cell.1 cell.2)
                                         vec_var = Some k) visited)))).
  destruct (for_each_invariant Inv cs (converter_step mat_DE mat_var vec_var)
    (zeros (Integer 0) n 1)) as (M & HM & _ & _ & Hall); [| |by exists M].
  - split; [done|]. split; [by rewrite length_zeros, Nat.mul_1_r|].
    intros k Hk. cbn. apply lookup_replicate_2. lia.
  - intros visited [i j] rest M Hitems (Hshape & Hlen & Hall).
    destruct (Hcs i j) as (Hi & Hj & Hi' & Hj').
    { rewrite Hitems. apply elem_of_app. right. left. }
    destruct (list_index_elem_of (entry mat_var i j) vec_var) as [idx Hidx].
    { apply (Hset (flatten (tolist mat_var))).
      apply elem_of_flatten_tolist. exists i, j. split_and!; [lia..|done]. }
    assert (idx < n) as Hlt.
    { apply list_index_Some, lookup_lt_Some in Hidx. done. }
    injection Hshape as Hr Hc. unfold converter_step.
    rewrite !getitem_Ok by lia. cbn. unfold index. rewrite Hidx. cbn.
    unfold setitem_flat. rewrite bool_decide_true by (rewrite Hr, Hc; lia).
    eexists. split; [reflexivity|]. split; [by rewrite Hr, Hc|].
    split; [cbn [mat]; by rewrite length_insert|].
    intros k Hk. cbn [mat]. rewrite filter_app, filter_cons, filter_nil.
    cbn [fst snd]. destruct (decide (k = idx)) as [->|Hne].
    + rewrite decide_True by done. rewrite last_snoc. cbn.
      apply list_lookup_insert_eq. lia.
    + rewrite decide_False by congruence. rewrite app_nil_r.
      rewrite list_lookup_insert_ne by done. by apply Hall.
Qed.

(** On a derivative matrix that has an element and fits in the state
    matrix, the converter returns a system that holds, for every symbol of
    the state matrix, the derivative written last for it. *)
Lemma converter_last_derivative (mat_DE mat_var mat_input : Matrix expr)
    (constants : list (expr * expr)) :
  nonempty mat_DE → rows mat_DE ≤ rows mat_var → cols mat_DE ≤ cols mat_var →
  ∃ sys,
    system_from_matrix_DE list_set mat_DE mat_var mat_input constants = Ok sys ∧
    mat (state sys) = list_set (flatten (tolist mat_var)) ∧
    ∀ sym, sym ∈ flatten (tolist mat_var) →
      derivative_of sys sym = Some (last_derivative mat_DE mat_var sym).
Proof.
  intros Hne Hrows Hcols.
  destruct (converter_returns list_set Hset mat_DE mat_var mat_input constants
    Hne Hrows Hcols) as (vec_DE & Hsys & _).
  destruct (converter_loop_last mat_DE mat_var (cells (rows mat_DE) (cols mat_DE)))
    as (vec_DE' & Hloop & Hlast).
  { intros i j Hin. apply elem_of_cells in Hin. lia. }
  assert (vec_DE' = vec_DE) as ->.
  { unfold system_from_matrix_DE in Hsys. rewrite nditer_Ok in Hsys by done.
    cbn [mbind result_bind] in Hsys. rewrite Hloop in Hsys.
    cbn [mbind result_bind] in Hsys. by simplify_eq. }
  eexists. split; [exact Hsys|]. split; [done|].
  intros sym Hsym. unfold derivative_of. cbn [state state_equation mat].
  destruct (list_index_elem_of sym (list_set (flatten (tolist mat_var))))
    as [k Hk]; [by apply (Hset (flatten (tolist mat_var)))|].
  rewrite Hk. cbn. rewrite Hlast by (by apply list_index_Some, lookup_lt_Some in Hk).
  unfold last_derivative, cells_of_symbol. do 3 f_equal.
  apply list_filter_iff. intros [i j]. cbn. split.
  - intros Hij. apply list_index_Some in Hij, Hk. congruence.
  - by intros ->.
Qed.
End converter_last.

Lemma set_order_reversed_dups : set_order reversed_dups.
Proof.
  intros l. unfold reversed_dups. split.
  - rewrite reverse_Permutation. apply NoDup_remove_dups.
  - intros x. by rewrite elem_of_reverse, elem_of_remove_dups.
Qed.

(** X6. For a [mat_DE] that has an element and fits in [mat_var] (equal
    shapes included), whatever the order the set is listed in: the
    derivative held at the position of a state symbol is the [mat_DE] entry
    of the last cell, row after row, at which [mat_var] holds that symbol
    (a symbol that recurs keeps only the derivative written last), and it
    is the zero for a symbol that [mat_var] holds only outside the shape of
    [mat_DE]. *)
Theorem system_from_matrix_DE_last_write (list_set : list expr → list expr)
    (mat_DE mat_var mat_input : Matrix expr) (constants : list (expr * expr)) :
  set_order list_set →
  nonempty mat_DE → rows mat_DE ≤ rows mat_var → cols mat_DE ≤ cols mat_var →
  ∃ sys,
    system_from_matrix_DE list_set mat_DE mat_var mat_input constants = Ok sys ∧
    (∀ sym, sym ∈ flatten (tolist mat_var) →
       derivative_of sys sym = Some (last_derivative mat_DE mat_var sym)) ∧
    (∀ i j i' j', i < rows mat_DE → j < cols mat_DE →
       cells_of_symbol mat_DE mat_var (entry mat_var i j) = [(i', j')] →
       derivative_of sys (entry mat_var i j) = Some (entry mat_DE i j)) ∧
    (∀ sym, sym ∈ flatten (tolist mat_var) →
       cells_of_symbol mat_DE mat_var sym = [] →
       derivative_of sys sym = Some (Integer 0)).
Proof.
  intros Hset Hne Hrows Hcols.
  destruct (converter_last_derivative list_set Hset mat_DE mat_var mat_input
    constants Hne Hrows Hcols) as (sys & Hsys & _ & Hlast).
  exists sys. split; [exact Hsys|]. split; [exact Hlast|]. split.
  - intros i j i' j' Hi Hj Hcells.
    assert ((i, j) ∈ cells_of_symbol mat_DE mat_var (entry mat_var i j)) as Hin.
    { unfold cells_of_symbol. apply list_elem_of_filter. split; [done|].
      by apply elem_of_cells. }
    rewrite Hcells in Hin. apply list_elem_of_singleton in Hin.
    rewrite Hlast by (apply elem_of_flatten_tolist; exists i, j;
                      split_and!; [lia..|done]).
    unfold last_derivative. rewrite Hcells. by simplify_eq.
  - intros sym Hsym Hcells. rewrite Hlast by done.
    unfold last_derivative. by rewrite Hcells.
Qed.

Lemma system_from_matrix_DE_last_write_witness :
  set_order remove_dups ∧ nonempty DE_clash ∧
  rows DE_clash ≤ rows var_clash ∧ cols DE_clash ≤ cols var_clash ∧
  ∃ sys,
    system_from_matrix_DE remove_dups DE_clash var_clash empty_matrix [] = Ok sys ∧
    derivative_of sys sym_b = Some (Integer 2).
Proof.
  assert (nonempty DE_clash) as Hne by (by unfold nonempty).
  assert (rows DE_clash ≤ rows var_clash) as Hrows by (cbn; lia).
  assert (cols DE_clash ≤ cols var_clash) as Hcols by (cbn; lia).
  destruct (system_from_matrix_DE_last_write remove_dups DE_clash var_clash
    empty_matrix [] set_order_remove_dups Hne Hrows Hcols)
    as (sys & Hsys & Hlast & _).
  split; [exact set_order_remove_dups|]. split; [done|]. split; [done|].
  split; [done|]. exists sys. split; [exact Hsys|].
  apply (Hlast sym_b). apply elem_of_flatten_tolist. exists 0, 1.
  split; [cbn; lia|]. split; [cbn; lia|]. reflexivity.
Defined.

(** X7. The symbol-to-derivative mapping does not depend on the order in
    which the set of state symbols is listed: for a [mat_DE] that has an
    element and fits in [mat_var], the systems built with two orders hold
    the same derivative for every symbol of [mat_var], and their state
    vectors hold the same symbols. *)
Theorem system_from_matrix_DE_order_independent
    (list_set1 list_set2 : list expr → list expr)
    (mat_DE mat_var mat_input : Matrix expr) (constants : list (expr * expr)) :
  set_order list_set1 → set_order list_set2 →
  nonempty mat_DE → rows mat_DE ≤ rows mat_var → cols mat_DE ≤ cols mat_var →
  ∃ sys1 sys2,
    system_from_matrix_DE list_set1 mat_DE mat_var mat_input constants = Ok sys1 ∧
    system_from_matrix_DE list_set2 mat_DE mat_var mat_input constants = Ok sys2 ∧
    mat (state sys1) ≡ₚ mat (state sys2) ∧
    ∀ sym, sym ∈ mat (state sys1) →
      is_Some (derivative_of sys1 sym) ∧
      derivative_of sys1 sym = derivative_of sys2 sym.
Proof.
  intros Hset1 Hset2 Hne Hrows Hcols.
  destruct (converter_last_derivative list_set1 Hset1 mat_DE mat_var mat_input
    constants Hne Hrows Hcols) as (sys1 & Hsys1 & Hstate1 & Hlast1).
  destruct (converter_last_derivative list_set2 Hset2 mat_DE mat_var mat_input
    constants Hne Hrows Hcols) as (sys2 & Hsys2 & Hstate2 & Hlast2).
  exists sys1, sys2. split; [done|]. split; [done|].
  destruct (Hset1 (flatten (tolist mat_var))) as [Hnd1 Hin1].
  destruct (Hset2 (flatten (tolist mat_var))) as [Hnd2 Hin2]. split.
  - rewrite Hstate1, Hstate2. apply NoDup_Permutation; [done..|].
    intros sym. by rewrite Hin1, Hin2.
  - intros sym Hsym. rewrite Hstate1 in Hsym. apply Hin1 in Hsym.
    rewrite Hlast1, Hlast2 by done. by split; [eexists|].
Qed.

Lemma system_from_matrix_DE_order_independent_witness :
  set_order remove_dups ∧ set_order reversed_dups ∧ nonempty DE_sample ∧
  rows DE_sample ≤ rows var_sample ∧ cols DE_sample ≤ cols var_sample ∧
  ∃ sys1 sys2,
    system_from_matrix_DE remove_dups DE_sample var_sample empty_matrix [] = Ok sys1 ∧
    system_from_matrix_DE reversed_dups DE_sample var_sample empty_matrix [] = Ok sys2 ∧
    mat (state sys1) = [sym_a; sym_b; sym_c] ∧
    mat (state sys2) = [sym_c; sym_b; sym_a] ∧
    ∀ sym, sym ∈ mat (state sys1) →
      derivative_of sys1 sym = derivative_of sys2 sym.
Proof.
  assert (nonempty DE_sample) as Hne by (by unfold nonempty).
  assert (rows DE_sample ≤ rows var_sample) as Hrows by (cbn; lia).
  assert (cols DE_sample ≤ cols var_sample) as Hcols by (cbn; lia).
  destruct (system_from_matrix_DE_order_independent remove_dups reversed_dups
    DE_sample var_sample empty_matrix [] set_order_remove_dups
    set_order_reversed_dups Hne Hrows Hcols)
    as (sys1 & sys2 & Hsys1 & Hsys2 & _ & Hsame).
  split; [exact set_order_remove_dups|]. split; [exact set_order_reversed_dups|].
  split; [done|]. split; [done|]. split; [done|].
  exists sys1, sys2. split; [exact Hsys1|]. split; [exact Hsys2|].
  split; [by vm_compute in Hsys1; injection Hsys1 as <-|].
  split; [by vm_compute in Hsys2; injection Hsys2 as <-|].
  intros sym Hsym. by apply Hsame.
Defined.

(** ** From the matrix equation to the vector form and back *)

Lemma flatten_tolist_column {A : Type} `{Inhabited A} (l : list A) :
  flatten (tolist (mk_matrix (length l) 1 l)) = l.
Proof.
  apply list_eq_same_length with (length l); [done| |].
  - rewrite flatten_tolist. cbn [rows cols]. rewrite length_flat. lia.
  - intros k x y Hk Hx Hy.
    pose proof (flatten_tolist_lookup (mk_matrix (length l) 1 l) k 0) as Hlook.
    cbn [rows cols] in Hlook. rewrite Nat.mul_1_r, Nat.add_0_r in Hlook.
    rewrite Hlook in Hx by lia. unfold entry in Hx. cbn [mat cols] in Hx.
    rewrite Nat.mul_1_r, Nat.add_0_r in Hx.
    rewrite (list_lookup_total_correct l k y Hy) in Hx. congruence.
Qed.

(** X8. The state vector of the system that [system_from_matrix_DE]
    builds is an unraveled order that fits the layout [mat_var]: for
    [mat_DE] and [mat_var] of one shape that have an element, whatever the
    order of the set, when the trajectory callable gives at the time [t]
    the value of every state symbol, in the order of the state vector, the
    matrix rebuilt over the layout [mat_var] holds at every cell the value
    of the symbol of that cell (so cells with one symbol hold one value),
    and no symbol lookup fails. *)
Theorem flatten_then_reconstruct {num : Type} `{Inhabited num} (zero : num)
    (list_set : list expr → list expr)
    (mat_DE mat_var mat_input : Matrix expr) (constants : list (expr * expr))
    (cft : list num → Matrix num → time_arg → ndarray)
    (tt : list num) (x : Matrix num) (t : num) (value_of : expr → num) :
  set_order list_set → shape mat_DE = shape mat_var → nonempty mat_DE →
  ∃ sys,
    system_from_matrix_DE list_set mat_DE mat_var mat_input constants = Ok sys ∧
    (cft tt x (Scalar t) = Array1 (value_of <$> mat (state sys)) →
     ∃ M,
       matrix_callable_from_vector_trajectory zero cft tt x (UMatrix (state sys))
         mat_var (Scalar t) = Ok (Single M) ∧
       shape M = shape mat_var ∧
       ∀ i j, i < rows mat_var → j < cols mat_var →
         getitem M i j = Ok (value_of (entry mat_var i j))).
Proof.
  intros Hset Hshape Hne. injection Hshape as Hrows Hcols.
  destruct (converter_returns list_set Hset mat_DE mat_var mat_input constants)
    as (vec_DE & Hsys & _); [done|lia..|].
  set (vec_var := list_set (flatten (tolist mat_var))) in *.
  eexists. split; [exact Hsys|]. cbn [state mat]. intros Hvc.
  rewrite matrix_callable_from_vector_trajectory_unfold.
  assert (unraveled_list (UMatrix (mk_matrix (length vec_var) 1 vec_var)) = vec_var)
    as -> by apply flatten_tolist_column.
  assert (drawn_from mat_var vec_var) as Hdrawn.
  { intros i j Hi Hj. apply (Hset (flatten (tolist mat_var))).
    apply elem_of_flatten_tolist. by exists i, j. }
  assert (nonempty mat_var) as Hne' by (unfold nonempty in *; congruence).
  eexists. split.
  - apply (matrix_callable_single zero _ vec_var mat_var (Scalar t)
             (value_of <$> vec_var)); [done..|by rewrite length_fmap].
  - split; [done|]. intros i j Hi Hj.
    rewrite getitem_Ok by done. rewrite entry_reconstructed by done. f_equal.
    destruct (list_index_elem_of _ _ (Hdrawn i j Hi Hj)) as [k Hk].
    rewrite (column_of_index _ _ _ Hk). apply list_index_Some in Hk.
    apply list_lookup_total_correct. by rewrite list_lookup_fmap, Hk.
Qed.

Lemma flatten_then_reconstruct_witness :
  set_order remove_dups ∧ shape DE_sample = shape var_sample ∧ nonempty DE_sample ∧
  ∃ sys,
    system_from_matrix_DE remove_dups DE_sample var_sample empty_matrix [] = Ok sys ∧
    hold_first [0%Z] x_values (Scalar 0%Z) = Array1 (value_sample <$> mat (state sys)) ∧
    matrix_callable_from_vector_trajectory 0%Z hold_first [0%Z] x_values
      (UMatrix (state sys)) var_sample (Scalar 0%Z)
    = Ok (Single (mk_matrix 2 2 [10; 20; 20; 30]%Z)).
Proof.
  assert (nonempty DE_sample) as Hne by (by unfold nonempty).
  destruct (flatten_then_reconstruct 0%Z remove_dups DE_sample var_sample
    empty_matrix [] hold_first [0%Z] x_values 0%Z value_sample
    set_order_remove_dups eq_refl Hne) as (sys & Hsys & Hround).
  split; [exact set_order_remove_dups|]. split; [done|]. split; [done|].
  exists sys. split; [exact Hsys|].
  vm_compute in Hsys. injection Hsys as <-.
  split; [reflexivity|].
  destruct (Hround eq_refl) as (M & HM & _). reflexivity.
Defined.

(** ** matrix_subs on matrices of different shapes *)

Lemma collect_cases {X Y : Type} (items : list X) (piece : X → result (list Y))
    (e : exn) :
  (∀ x, x ∈ items → (∃ ys, piece x = Ok ys) ∨ piece x = Raise e) →
  (∃ zs, collect items piece = Ok zs ∧ ∀ x, x ∈ items → ∃ ys, piece x = Ok ys)
  ∨ collect items piece = Raise e.
Proof.
  induction items as [|x items IH]; intros Hpiece.
  - left. exists []. split; [done|]. intros x Hx. by apply elem_of_nil in Hx.
  - cbn [collect]. destruct (Hpiece x) as [[ys Hys]| ->]; [left| |by right].
    rewrite Hys. cbn.
    destruct IH as [(zs & -> & Hall)| ->]; [|left|by right].
    + intros y Hy. apply Hpiece. by right.
    + cbn. eexists. split; [done|]. intros y Hy.
      apply elem_of_cons in Hy as [->|Hy]; [by eexists|by apply Hall].
Qed.

(** X9. [matrix_subs] on one pair does not compare the shapes: the value
    matrix is read only at the positions whose symbolic entry is not the
    zero. When all these positions lie inside the value matrix, the pairs
    (symbol, value at the same position) are returned, whatever the two
    shapes are; when one of them lies outside, the call raises
    IndexError. *)
Theorem matrix_subs_shapes (S V : Matrix expr) :
  ((∀ i j, i < rows S → j < cols S → entry S i j ≠ Integer 0 →
      i < rows V ∧ j < cols V) →
   matrix_subs [PMatrix S; PMatrix V] = Ok (SubsTuple (substitution_pairs S V))) ∧
  ((∃ i j, i < rows S ∧ j < cols S ∧ entry S i j ≠ Integer 0 ∧
           ¬ (i < rows V ∧ j < cols V)) →
   matrix_subs [PMatrix S; PMatrix V] = Raise IndexError).
Proof.
  assert (matrix_subs [PMatrix S; PMatrix V]
          = pairs ← (zs ← collect (range 0 (rows S)) (λ i,
                       collect (range 0 (cols S)) (λ j,
                         e ← getitem S i j;
                         if nonzero e
                         then v ← getitem V i j; Ok [(e, v)]
                         else Ok []));
                     Ok (zs ++ []));
            Ok (SubsTuple pairs)) as -> by reflexivity.
  split.
  - intros Hinside.
    rewrite (collect_Ok _ _ (λ i, j ← range 0 (cols S);
      if decide (entry S i j ≠ Integer 0) then [(entry S i j, entry V i j)] else [])).
    + cbn. rewrite app_nil_r. unfold substitution_pairs, nonzero_cells, cells, range.
      rewrite (fmap_filter_product (λ ij, entry S ij.1 ij.2 ≠ Integer 0)).
      by rewrite !Nat.sub_0_r.
    + intros i Hi. apply elem_of_seq in Hi. apply collect_Ok.
      intros j Hj. apply elem_of_seq in Hj.
      rewrite (getitem_Ok S) by lia. cbn. unfold nonzero.
      case_bool_decide as Hnz; case_decide; try done.
      destruct (Hinside i j) as [? ?]; [lia..|done|].
      rewrite (getitem_Ok V) by lia. done.
  - intros (i & j & Hi & Hj & Hnz & Hout).
    assert (∀ i' j', i' ∈ range 0 (rows S) → j' ∈ range 0 (cols S) →
      (∃ ys, (e ← getitem S i' j';
              if nonzero e then v ← getitem V i' j'; Ok [(e, v)] else Ok [])
             = Ok ys)
      ∨ (e ← getitem S i' j';
         if nonzero e then v ← getitem V i' j'; Ok [(e, v)] else Ok [])
        = Raise IndexError) as Hcell.
    { intros i' j' Hi' Hj'. unfold range in Hi', Hj'.
      apply elem_of_seq in Hi', Hj'. rewrite (getitem_Ok S) by lia. cbn.
      destruct (nonzero (entry S i' j')); [|left; by eexists].
      unfold getitem. case_bool_decide; cbn; [left; by eexists|by right]. }
    destruct (collect_cases (range 0 (rows S)) (λ i,
      collect (range 0 (cols S)) (λ j,
        e ← getitem S i j;
        if nonzero e then v ← getitem V i j; Ok [(e, v)] else Ok []))
      IndexError) as [(zs & _ & Hall)| ->]; [| |done].
    + intros i' Hi'.
      destruct (collect_cases (range 0 (cols S)) (λ j,
        e ← getitem S i' j;
        if nonzero e then v ← getitem V i' j; Ok [(e, v)] else Ok [])
        IndexError) as [(zs & -> & _)| ->]; [|left; by eexists|by right].
      intros j' Hj'. by apply Hcell.
    + exfalso. destruct (Hall i) as [ys Hys].
      { unfold range. apply elem_of_seq. lia. }
      destruct (collect_cases (range 0 (cols S)) (λ j,
        e ← getitem S i j;
        if nonzero e then v ← getitem V i j; Ok [(e, v)] else Ok [])
        IndexError) as [(zs' & _ & Hall')|Hraise].
      * intros j' Hj'. apply Hcell; [|done]. unfold range. apply elem_of_seq. lia.
      * destruct (Hall' j) as [ys' Hys'].
        { unfold range. apply elem_of_seq. lia. }
        rewrite (getitem_Ok S) in Hys' by done. cbn in Hys'. unfold nonzero in Hys'.
        rewrite bool_decide_true in Hys' by done.
        rewrite (getitem_Raise V i j Hout) in Hys'. done.
      * congruence.
Qed.

Lemma matrix_subs_shapes_witness :
  (∀ i j, i < rows S_repeated → j < cols S_repeated →
     entry S_repeated i j ≠ Integer 0 → i < rows V_large ∧ j < cols V_large) ∧
  matrix_subs [PMatrix S_repeated; PMatrix V_large]
  = Ok (SubsTuple [(sym_a, Integer 1); (sym_a, Integer 2)]) ∧
  (∃ i j, i < rows S_sample ∧ j < cols S_sample ∧ entry S_sample i j ≠ Integer 0 ∧
          ¬ (i < rows V_short ∧ j < cols V_short)) ∧
  matrix_subs [PMatrix S_sample; PMatrix V_short] = Raise IndexError.
Proof.
  assert (∀ i j, i < rows S_repeated → j < cols S_repeated →
    entry S_repeated i j ≠ Integer 0 → i < rows V_large ∧ j < cols V_large)
    as Hinside by (cbn; lia).
  assert (∃ i j, i < rows S_sample ∧ j < cols S_sample ∧
    entry S_sample i j ≠ Integer 0 ∧ ¬ (i < rows V_short ∧ j < cols V_short))
    as Houtside.
  { exists 1, 0. split; [cbn; lia|]. split; [cbn; lia|]. split; [done|]. cbn. lia. }
  split; [exact Hinside|].
  split; [exact (proj1 (matrix_subs_shapes S_repeated V_large) Hinside)|].
  split; [exact Houtside|].
  exact (proj2 (matrix_subs_shapes S_sample V_short) Houtside).
Defined.

(** ** The diagonal matrix of the builder, handed to matrix_subs *)

Lemma bind_only_at {A : Type} (h : nat → A) (i : nat) (l : list nat) :
  NoDup l → i ∈ l →
  (j ← l; if decide (i = j) then [h j] else []) = [h i].
Proof.
  intros Hnd Hin. induction Hnd as [|x l Hx Hnd IH]; [by apply elem_of_nil in Hin|].
  rewrite bind_cons. destruct (decide (i = x)) as [->|Hne].
  - cbn. f_equal. clear IH Hin Hnd. induction l as [|y l IH]; [done|].
    rewrite bind_cons. rewrite decide_False by (intros ->; apply Hx; left).
    apply IH. intros Hin. apply Hx. by right.
  - cbn. apply IH. apply elem_of_cons in Hin as [?|?]; done.
Qed.

Lemma bind_singleton_fmap {A B : Type} (f : A → B) (l : list A) :
  (x ← l; [f x]) = f <$> l.
Proof. induction l as [|x l IH]; [done|]. by rewrite bind_cons, IH. Qed.

(** X10. For a base name that the symbol function reads as the name of one
    symbol and keyword arguments that only qualify the symbol: the diagonal
    matrix of the builder, handed to [matrix_subs] with an n by n value
    matrix, gives exactly n pairs: the symbol [name_ii] with the value at
    (i, i), for i from 1 to n in this order; the values off the diagonal
    are never read. *)
Theorem matrix_subs_of_diagonal (name : string) (n : nat)
    (symmetric dynamic : bool) (kwass : kwargs) (V : Matrix expr) :
  one_symbol_name name = true → assumptions_only kwass = true →
  shape V = (n, n) →
  ∃ D,
    construct_explicit_matrix name n n symmetric true dynamic kwass = Some (Ok D) ∧
    matrix_subs [PMatrix D; PMatrix V]
    = Ok (SubsTuple ((λ i, (element name dynamic kwass i i, entry V i i))
                       <$> seq 0 n)).
Proof.
  intros Hname Hkw HV. unfold construct_explicit_matrix.
  rewrite bool_decide_false by (intros Hne; by apply Hne). cbn [andb].
  rewrite diagonal_symbols by done. cbn [fmap option_fmap option_map mbind result_bind].
  set (values := _ <$> seq 0 n).
  assert (length values = n) as Hlen.
  { unfold values. by rewrite length_fmap, length_seq. }
  assert (∀ i, i < n → values !!! i = element name dynamic kwass i i) as Hval.
  { intros i Hi. apply list_lookup_total_correct. unfold values.
    by rewrite list_lookup_fmap, lookup_seq_lt by lia. }
  exists (diag values). split; [done|].
  unfold matrix_subs. cbn [length head from_option is_list_tuple_dict negb andb].
  rewrite bool_decide_true by done. cbn [andb].
  unfold substitutions. cbn [collect].
  rewrite (substitutions_of_pair (diag values) V PTuple);
    [|by left|by rewrite shape_diag, Hlen].
  cbn. rewrite app_nil_r. do 2 f_equal.
  unfold substitution_pairs, nonzero_cells, cells. cbn [rows cols diag].
  rewrite (fmap_filter_product (λ ij, entry (diag values) ij.1 ij.2 ≠ Integer 0)).
  rewrite Hlen. rewrite <- bind_singleton_fmap.
  apply Forall_bind_ext, Forall_forall. intros i Hi. apply elem_of_seq in Hi.
  rewrite <- (bind_only_at (λ j, (element name dynamic kwass i j, entry V i j)) i
    (seq 0 n)) by (try apply NoDup_seq; apply elem_of_seq; lia).
  apply Forall_bind_ext, Forall_forall. intros j Hj. apply elem_of_seq in Hj.
  cbn [fst snd]. rewrite entry_diag by lia.
  destruct (decide (i = j)) as [->|Hne].
  - rewrite Hval by lia. rewrite decide_True; [done|]. apply symbol_ne_zero.
  - by rewrite decide_False by (intros Hnz; by apply Hnz).
Qed.

Lemma matrix_subs_of_diagonal_witness :
  one_symbol_name "a" = true ∧ assumptions_only [] = true ∧
  shape V_sample = (2, 2) ∧
  ∃ D, construct_explicit_matrix "a" 2 2 false true false [] = Some (Ok D) ∧
    matrix_subs [PMatrix D; PMatrix V_sample]
    = Ok (SubsTuple [(Symbol "a_11" [], Integer 1); (Symbol "a_22" [], Integer 1)]).
Proof.
  split; [done|]. split; [done|]. split; [done|].
  exact (matrix_subs_of_diagonal "a" 2 false false [] V_sample eq_refl eq_refl
           eq_refl).
Defined.

(** ** block_matrix on blocks that do not agree *)

Lemma row_join_ShapeError (A B : Matrix expr) :
  rows A ≠ rows B → 0 < cols A → row_join A B = Raise ShapeError.
Proof.
  intros Hrows Hcols. unfold row_join.
  rewrite (bool_decide_false (cols A = 0 ∧ _)) by lia.
  by rewrite bool_decide_true.
Qed.

Lemma col_join_ShapeError (A B : Matrix expr) :
  cols A ≠ cols B → 0 < rows A → col_join A B = Raise ShapeError.
Proof.
  intros Hcols Hrows. unfold col_join.
  rewrite (bool_decide_false (rows A = 0 ∧ _)) by lia.
  by rewrite bool_decide_true.
Qed.

(** X11. On a grid of two block-rows of two blocks whose blocks do not
    agree, [block_matrix] ends with the ShapeError of the join that meets
    the disagreement, and returns nothing: two blocks of a block-row with
    different row counts (the left one having columns), or two block-rows
    of different widths (the upper one having rows). *)
Theorem block_matrix_mismatch (A B C D : Matrix expr) :
  (rows A ≠ rows B → 0 < cols A →
   block_matrix [[A; B]; [C; D]] = Raise ShapeError) ∧
  (rows A = rows B → rows C ≠ rows D → 0 < cols C →
   block_matrix [[A; B]; [C; D]] = Raise ShapeError) ∧
  (rows A = rows B → rows C = rows D → 0 < rows A →
   cols A + cols B ≠ cols C + cols D →
   block_matrix [[A; B]; [C; D]] = Raise ShapeError).
Proof.
  unfold block_matrix, tuple_of. cbn [collect call_binary]. split; [|split].
  - intros Hrows Hcols. by rewrite (row_join_ShapeError A B).
  - intros HAB HCD Hcols.
    destruct (row_join_Ok A B HAB) as (T & -> & _). cbn.
    by rewrite (row_join_ShapeError C D).
  - intros HAB HCD Hrows Hcols.
    destruct (row_join_Ok A B HAB) as (T & -> & HTr & HTc & _).
    destruct (row_join_Ok C D HCD) as (U & -> & HUr & HUc & _). cbn.
    apply col_join_ShapeError; lia.
Qed.

Lemma block_matrix_mismatch_witness :
  rows block_23 ≠ rows block_13 ∧ 0 < cols block_23 ∧
  block_matrix [[block_23; block_13]; [block_22; block_12]] = Raise ShapeError.
Proof.
  assert (rows block_23 ≠ rows block_13) as Hrows by (cbn; lia).
  assert (0 < cols block_23) as Hcols by (cbn; lia).
  split; [done|]. split; [done|].
  exact (proj1 (block_matrix_mismatch block_23 block_13 block_22 block_12)
           Hrows Hcols).
Defined.

(** ** matrix_callable on an array in another form *)

(** X12. For k > 1 times the closure needs one line of k values per
    symbol. On a layout that has an element and whose symbols are found,
    when no line of the array that the trajectory callable gives has k
    values (nor one value, which numpy would broadcast) -- as for an array
    with one line per time and n values in it, n different from 1 and k --
    the call fails at the first cell: with the broadcast ValueError, or
    with IndexError when the array has no line at the column of the first
    symbol. *)
Theorem matrix_callable_other_form {num : Type} `{Inhabited num} (zero : num)
    (cft : list num → Matrix num → time_arg → ndarray)
    (tt : list num) (x : Matrix num) (unraveled : unraveled_arg)
    (raveled : Matrix expr) (ts : list num) (lines : list (list num)) :
  1 < length ts → nonempty raveled →
  drawn_from raveled (unraveled_list unraveled) →
  cft tt x (Sequence ts) = Array2 lines →
  Forall (λ vs, length vs ≠ length ts ∧ length vs ≠ 1) lines →
  matrix_callable_from_vector_trajectory zero cft tt x unraveled raveled
    (Sequence ts)
  = (if decide (column_of (unraveled_list unraveled) (entry raveled 0 0)
                < length lines)
     then Raise (ValueError CouldNotBroadcast) else Raise IndexError).
Proof.
  intros Hk Hne Hdrawn Hvc Hlines.
  rewrite matrix_callable_from_vector_trajectory_unfold.
  by apply stacked_first_cell.
Qed.

Lemma matrix_callable_other_form_witness :
  1 < length [0; 1]%Z ∧ nonempty raveled_sample ∧
  drawn_from raveled_sample (unraveled_list (UList [sym_a; sym_b; sym_c])) ∧
  hold_first_time_major [0%Z] x_sample (Sequence [0; 1]%Z)
  = Array2 [[1; 2; 3]; [1; 2; 3]]%Z ∧
  matrix_callable_from_vector_trajectory 0%Z hold_first_time_major [0%Z] x_sample
    (UList [sym_a; sym_b; sym_c]) raveled_sample (Sequence [0; 1]%Z)
  = Raise (ValueError CouldNotBroadcast).
Proof.
  assert (1 < length [0; 1]%Z) as Hk by (cbn; lia).
  assert (nonempty raveled_sample) as Hne by (by unfold nonempty).
  split; [done|]. split; [done|]. split; [exact drawn_from_raveled_sample|].
  split; [done|].
  rewrite (matrix_callable_other_form 0%Z hold_first_time_major [0%Z] x_sample
    (UList [sym_a; sym_b; sym_c]) raveled_sample [0; 1]%Z
    [[1; 2; 3]; [1; 2; 3]]%Z Hk Hne drawn_from_raveled_sample eq_refl).
  - reflexivity.
  - repeat constructor; cbn; lia.
Defined.

(** ** Layouts that repeat a symbol *)

(** A loop that ends well ends with the invariant that its body keeps
    whenever it ends well. *)
Lemma for_each_Ok_invariant {X S : Type} (Inv : list X → S → Prop)
    (items : list X) (body : X → S → result S) (s s' : S) :
  Inv [] s →
  (∀ visited x rest s1 s2, items = visited ++ x :: rest → Inv visited s1 →
     body x s1 = Ok s2 → Inv (visited ++ [x]) s2) →
  for_each items body s = Ok s' → Inv items s'.
Proof.
  intros Hinit Hstep.
  cut (∀ todo visited s0, items = visited ++ todo → Inv visited s0 →
         for_each todo body s0 = Ok s' → Inv items s').
  { intros Hcut. by apply (Hcut items []). }
  induction todo as [|x todo IH]; intros visited s0 Hitems Hinv Hloop.
  - rewrite app_nil_r in Hitems. cbn in Hloop. by simplify_eq.
  - cbn in Hloop. destruct (body x s0) as [s1|e] eqn:Hbody; [|done].
    cbn in Hloop. apply (IH (visited ++ [x]) s1); [by rewrite <- app_assoc| |done].
    by eapply Hstep.
Qed.

Lemma tuple_of_Ok_inv {X Y : Type} (f : X → result Y) (items : list X)
    (ys : list Y) :
  tuple_of f items = Ok ys → Forall2 (λ x y, f x = Ok y) items ys.
Proof.
  revert ys. induction items as [|x items IH]; intros ys Hys.
  - cbn in Hys. simplify_eq. constructor.
  - unfold tuple_of in *. cbn [collect] in Hys.
    destruct (f x) as [y|e] eqn:Hx; [|done]. cbn in Hys.
    destruct (collect items _) as [zs|e]; [|done]. cbn in Hys. simplify_eq.
    constructor; [done|]. by apply IH.
Qed.

Lemma setitem_Ok_inv {A : Type} (M M' : Matrix A) i j v :
  setitem M i j v = Ok M' →
  i < rows M ∧ j < cols M ∧
  M' = mk_matrix (rows M) (cols M) (<[i * cols M + j := v]> (mat M)).
Proof. unfold setitem. case_bool_decide; [|done]. intros [= <-]. naive_solver. Qed.

(** An assignment that ends well has written, to the matrix of each
    position, the number of the item for this position. *)
Lemma assign_written {num : Type} `{Inhabited num} (r r' : @matrix_value num)
    (i j : nat) (v : array_item) :
  assign r i j v = Ok r' →
  ∀ l M', matrices_of r' !! l = Some M' →
    ∃ M, matrices_of r !! l = Some M ∧ setitem M i j (written v l) = Ok M'.
Proof.
  destruct r as [M|Ms]; cbn [assign]; intros Hassign l M' Hl.
  - destruct (assign_single M i j v) as [M1|e] eqn:Hsingle; [|done].
    cbn in Hassign. simplify_eq. cbn in Hl.
    apply list_lookup_singleton_Some in Hl as [-> <-]. exists M. split; [done|].
    by destruct v as [x|[|x [|y vs]]].
  - destruct (assign_stacked Ms i j v) as [Ms1|e] eqn:Hstacked; [|done].
    cbn in Hassign. simplify_eq. cbn [matrices_of] in *.
    assert ((∃ x, written v l = x ∧
               tuple_of (λ M, setitem M i j x) Ms = Ok Ms1) ∨
            (∃ vs, written v l = vs !!! l ∧
               tuple_of (λ Mx, setitem Mx.1 i j Mx.2) (zip Ms vs) = Ok Ms1))
      as [(x & Hx & Htuple)|(vs & Hvs & Htuple)].
    { destruct v as [x|[|x [|y vs]]]; [left; by eexists|right|left; by eexists|right].
      - exists []. split; [done|]. cbn in Hstacked. by case_bool_decide.
      - exists (x :: y :: vs). split; [done|].
        rewrite assign_stacked_array in Hstacked by (cbn; lia).
        by case_bool_decide. }
    + apply tuple_of_Ok_inv in Htuple.
      destruct (Forall2_lookup_r _ _ _ _ _ Htuple Hl) as (M & HM & Hset).
      exists M. by rewrite Hx.
    + apply tuple_of_Ok_inv in Htuple.
      destruct (Forall2_lookup_r _ _ _ _ _ Htuple Hl) as ([M x] & HMx & Hset).
      apply lookup_zip_with_Some in HMx as (M0 & x0 & Heq & HM & Hx).
      simplify_eq. exists M0. split; [done|]. rewrite Hvs.
      by rewrite (list_lookup_total_correct _ _ _ Hx).
Qed.

(** The loop over cells of the layout, whatever the array: when it ends
    well, every matrix of the result has the shape of the layout and holds,
    at each visited cell, the number written for the item at the column of
    the cell's symbol. *)
Lemma reconstruct_loop_values {num : Type} `{Inhabited num} (zero : num)
    (a : ndarray) (unraveled : list expr) (raveled : Matrix expr) (t : time_arg)
    (cs : list (nat * nat)) (r : matrix_value) :
  for_each cs (reconstruct_step a unraveled raveled) (initial_result zero raveled t)
  = Ok r →
  ∀ l M, matrices_of r !! l = Some M →
    rows M = rows raveled ∧ cols M = cols raveled ∧
    length (mat M) = rows raveled * cols raveled ∧
    ∀ i j, (i, j) ∈ cs →
      i < rows raveled ∧ j < cols raveled ∧
      ∃ idx v, list_index (entry raveled i j) unraveled = Some idx ∧
               array_getitem a idx = Ok v ∧ entry M i j = written v l.
Proof.
  pose (Inv := λ (visited : list (nat * nat)) (r : @matrix_value num),
    ∀ l M, matrices_of r !! l = Some M →
      rows M = rows raveled ∧ cols M = cols raveled ∧
      length (mat M) = rows raveled * cols raveled ∧
      ∀ i j, (i, j) ∈ visited →
        i < rows raveled ∧ j < cols raveled ∧
        ∃ idx v, list_index (entry raveled i j) unraveled = Some idx ∧
                 array_getitem a idx = Ok v ∧ entry M i j = written v l).
  apply (for_each_Ok_invariant Inv).
  - intros l M HM.
    assert (M = zeros zero (rows raveled) (cols raveled)) as ->.
    { destruct t as [t|ts]; cbn in HM.
      - by apply list_lookup_singleton_Some in HM as [_ <-].
      - case_bool_decide; cbn in HM.
        + by apply lookup_replicate in HM as [-> _].
        + by apply list_lookup_singleton_Some in HM as [_ <-]. }
    split; [done|]. split; [done|]. split; [apply length_zeros|].
    intros i j Hin. by apply elem_of_nil in Hin.
  - intros visited [i j] rest r1 r2 _ Hinv Hbody l M2 HM2.
    unfold reconstruct_step in Hbody.
    destruct (getitem raveled i j) as [sym|e] eqn:Hget; [|done].
    unfold getitem in Hget. case_bool_decide as Hij; [|done].
    destruct Hij as [Hi Hj]. injection Hget as <-. cbn [mbind result_bind] in Hbody.
    unfold index in Hbody.
    destruct (list_index (entry raveled i j) unraveled) as [idx|] eqn:Hidx; [|done].
    cbn [mbind result_bind] in Hbody.
    destruct (array_getitem a idx) as [v|e] eqn:Hv; [|done].
    cbn [mbind result_bind] in Hbody.
    destruct (assign_written _ _ _ _ _ Hbody l M2 HM2) as (M & HM & Hset).
    destruct (Hinv l M HM) as (Hrows & Hcols & Hlen & Hentry).
    apply setitem_Ok_inv in Hset as (_ & _ & ->). cbn [rows cols mat].
    split; [done|]. split; [done|]. split; [by rewrite length_insert|].
    intros i' j' Hin.
    assert (i' < rows raveled ∧ j' < cols raveled) as [Hi' Hj'].
    { apply elem_of_app in Hin as [Hin|Hin]; [by destruct (Hentry i' j' Hin) as (? & ? & _)|].
      apply list_elem_of_singleton in Hin. by simplify_eq. }
    split; [done|]. split; [done|].
    rewrite (entry_setitem M i j (written v l) i' j') by lia.
    case_decide as Heq.
    + destruct Heq as [-> ->]. by exists idx, v.
    + apply elem_of_app in Hin as [Hin|Hin].
      * by destruct (Hentry i' j' Hin) as (_ & _ & Hcell).
      * apply list_elem_of_singleton in Hin. simplify_eq. by destruct Heq.
Qed.

(** X13. Whatever the array of the trajectory callable and the time
    argument: when the call returns, every matrix of the result (the one
    matrix, or each matrix of the stack) has the shape of the layout, and
    cells of the layout that hold one symbol hold one value in it; so a
    layout with [raveled[i, j] = raveled[j, i]] gives symmetric matrices.
    And the call does return when the layout has an element, its symbols
    are found and the array gives for each of them an item that can be
    assigned to a cell. *)
Theorem matrix_callable_repeated_symbols {num : Type} `{Inhabited num} (zero : num)
    (cft : list num → Matrix num → time_arg → ndarray)
    (tt : list num) (x : Matrix num) (unraveled : unraveled_arg)
    (raveled : Matrix expr) (t : time_arg) :
  (nonempty raveled → drawn_from raveled (unraveled_list unraveled) →
   assignable (unraveled_list unraveled) raveled t (cft tt x t) →
   ∃ r, matrix_callable_from_vector_trajectory zero cft tt x unraveled raveled t
        = Ok r) ∧
  (∀ r,
     matrix_callable_from_vector_trajectory zero cft tt x unraveled raveled t = Ok r →
     ∀ M, M ∈ matrices_of r →
       shape M = shape raveled ∧
       ∀ i j i' j', i < rows raveled → j < cols raveled →
         i' < rows raveled → j' < cols raveled →
         entry raveled i j = entry raveled i' j' →
         ∃ v, getitem M i j = Ok v ∧ getitem M i' j' = Ok v).
Proof.
  rewrite matrix_callable_from_vector_trajectory_unfold.
  set (ul := unraveled_list unraveled). unfold matrix_callable. split.
  { intros Hne Hdrawn Hassign. rewrite nditer_Ok by done. cbn [mbind result_bind].
    apply reconstruct_loop_returns; [done|].
    intros i j Hin. apply elem_of_cells in Hin as [Hi Hj]. auto. }
  intros r Hcall M HM.
  destruct (nditer raveled) as [iterator|e] eqn:Hiter; [|done].
  unfold nditer in Hiter. case_bool_decide; [done|]. injection Hiter as <-.
  cbn [mbind result_bind] in Hcall.
  apply list_elem_of_lookup_1 in HM as [l HM].
  destruct (reconstruct_loop_values zero _ _ _ _ _ _ Hcall l M HM)
    as (Hrows & Hcols & _ & Hentry).
  split; [unfold shape; congruence|].
  intros i j i' j' Hi Hj Hi' Hj' Heq.
  destruct (Hentry i j) as (_ & _ & idx & v & Hidx & Hv & Hcell);
    [by apply elem_of_cells|].
  destruct (Hentry i' j') as (_ & _ & idx' & v' & Hidx' & Hv' & Hcell');
    [by apply elem_of_cells|].
  rewrite Heq, Hidx' in Hidx. injection Hidx as ->.
  rewrite Hv in Hv'. injection Hv' as <-.
  exists (written v l). rewrite !getitem_Ok by lia. by rewrite Hcell, Hcell'.
Qed.

Lemma matrix_callable_repeated_symbols_witness :
  matrix_callable_from_vector_trajectory 0%Z sample_rows [0; 1]%Z x_wide
    (UList [sym_a; sym_b; sym_c]) raveled_sample (Scalar 1%Z)
  = Ok (Single (mk_matrix 2 2 [4; 5; 5; 6]%Z)) ∧
  getitem (mk_matrix 2 2 [4; 5; 5; 6]%Z) 0 1
  = getitem (mk_matrix 2 2 [4; 5; 5; 6]%Z) 1 0.
Proof.
  assert (matrix_callable_from_vector_trajectory 0%Z sample_rows [0; 1]%Z x_wide
    (UList [sym_a; sym_b; sym_c]) raveled_sample (Scalar 1%Z)
    = Ok (Single (mk_matrix 2 2 [4; 5; 5; 6]%Z))) as Hcall by reflexivity.
  split; [exact Hcall|].
  destruct (proj2 (matrix_callable_repeated_symbols 0%Z sample_rows [0; 1]%Z x_wide
    (UList [sym_a; sym_b; sym_c]) raveled_sample (Scalar 1%Z)) _ Hcall
    (mk_matrix 2 2 [4; 5; 5; 6]%Z)) as [_ Hsame]; [by left|].
  destruct (Hsame 0 1 1 0) as (v & -> & ->); cbn; (lia || reflexivity).
Defined.

(** ** The form of the result *)

(** An assignment that ends well keeps the form of the result: one matrix
    stays one matrix, a stack stays a stack of as many matrices. *)
Lemma assign_form {num : Type} (r r' : @matrix_value num) (i j : nat)
    (v : array_item) :
  assign r i j v = Ok r' →
  length (matrices_of r') = length (matrices_of r) ∧
  match r, r' with
  | Single _, Single _ | Stacked _, Stacked _ => True
  | _, _ => False
  end.
Proof.
  destruct r as [M|Ms]; cbn [assign]; intros Hassign.
  - destruct (assign_single M i j v) as [M1|e]; [|done].
    cbn in Hassign. by simplify_eq.
  - destruct (assign_stacked Ms i j v) as [Ms1|e] eqn:Hstacked; [|done].
    cbn in Hassign. simplify_eq. split; [|done]. cbn [matrices_of].
    assert ((∃ x, tuple_of (λ M, setitem M i j x) Ms = Ok Ms1) ∨
            (∃ vs, length vs = length Ms ∧
               tuple_of (λ Mx, setitem Mx.1 i j Mx.2) (zip Ms vs) = Ok Ms1))
      as [(x & Htuple)|(vs & Hvs & Htuple)].
    { destruct v as [x|[|x [|y vs]]]; [left; by eexists|right|left; by eexists|right].
      - exists []. cbn in Hstacked. by case_bool_decide.
      - exists (x :: y :: vs).
        rewrite assign_stacked_array in Hstacked by (cbn; lia).
        by case_bool_decide. }
    + apply tuple_of_Ok_inv, Forall2_length in Htuple. lia.
    + apply tuple_of_Ok_inv, Forall2_length in Htuple.
      rewrite length_zip in Htuple. lia.
Qed.

(** The loop over cells of the layout, whatever the array: when it ends
    well, the result has the form the time argument asks for. *)
Lemma reconstruct_loop_form {num : Type} `{Inhabited num} (zero : num)
    (a : ndarray) (unraveled : list expr) (raveled : Matrix expr) (t : time_arg)
    (cs : list (nat * nat)) (r : matrix_value) :
  for_each cs (reconstruct_step a unraveled raveled) (initial_result zero raveled t)
  = Ok r →
  well_shaped raveled t r.
Proof.
  intros Hloop.
  pose proof (reconstruct_loop_values zero a unraveled raveled t cs r Hloop) as Hvalues.
  assert (length (matrices_of r)
          = length (matrices_of (initial_result zero raveled t)) ∧
          match initial_result zero raveled t, r with
          | Single _, Single _ | Stacked _, Stacked _ => True
          | _, _ => False
          end) as [Hlen Hform].
  { revert Hloop. generalize (initial_result zero raveled t). clear Hvalues.
    induction cs as [|[i j] cs IH]; intros r0 Hloop.
    - cbn in Hloop. simplify_eq. split; [done|]. by destruct r.
    - cbn [for_each] in Hloop.
      destruct (reconstruct_step a unraveled raveled (i, j) r0) as [r1|e] eqn:Hstep;
        [|done].
      cbn [mbind result_bind] in Hloop. destruct (IH r1 Hloop) as [Hlen1 Hform1].
      assert (length (matrices_of r1) = length (matrices_of r0) ∧
              match r0, r1 with
              | Single _, Single _ | Stacked _, Stacked _ => True
              | _, _ => False
              end) as [Hlen0 Hform0].
      { unfold reconstruct_step in Hstep.
        destruct (getitem raveled i j) as [sym|e]; [|done].
        cbn [mbind result_bind] in Hstep.
        destruct (index unraveled sym) as [idx|e]; [|done].
        cbn [mbind result_bind] in Hstep.
        destruct (array_getitem a idx) as [v|e]; [|done].
        cbn [mbind result_bind] in Hstep. by eapply assign_form. }
      split; [lia|]. by destruct r0, r1, r. }
  pose proof (initial_well_shaped zero raveled t) as Hinit.
  destruct (initial_result zero raveled t) as [M0|Ms0], r as [M|Ms]; try done;
    cbn [well_shaped matrices_of] in *.
  - destruct Hinit as [Ht _]. split; [done|].
    destruct (Hvalues 0 M eq_refl) as (? & ? & _). done.
  - destruct Hinit as [Ht _]. split; [by rewrite Hlen|].
    apply Forall_lookup. intros l M HM.
    destruct (Hvalues l M HM) as (? & ? & _). done.
Qed.

(** X14. The branch on the length of the time argument, whatever the
    array of the trajectory callable: when the call returns, the result
    for a sequence of k > 1 times is a stack of exactly k matrices, and
    the result for one time or for a sequence of at most one time is one
    matrix, not a stack of one; every matrix has the shape of the
    layout. *)
Theorem matrix_callable_result_form {num : Type} `{Inhabited num} (zero : num)
    (cft : list num → Matrix num → time_arg → ndarray)
    (tt : list num) (x : Matrix num) (unraveled : unraveled_arg)
    (raveled : Matrix expr) (t : time_arg) (r : matrix_value) :
  matrix_callable_from_vector_trajectory zero cft tt x unraveled raveled t = Ok r →
  (∀ ts, t = Sequence ts → 1 < length ts →
     ∃ Ms, r = Stacked Ms ∧ length Ms = length ts ∧
           Forall (λ M, shape M = shape raveled) Ms) ∧
  (∀ ts, t = Sequence ts → length ts ≤ 1 →
     ∃ M, r = Single M ∧ shape M = shape raveled) ∧
  (∀ t0, t = Scalar t0 → ∃ M, r = Single M ∧ shape M = shape raveled).
Proof.
  rewrite matrix_callable_from_vector_trajectory_unfold.
  unfold matrix_callable. intros Hcall.
  destruct (nditer raveled) as [iterator|e]; [|done].
  cbn [mbind result_bind] in Hcall.
  apply reconstruct_loop_form in Hcall.
  split; [|split].
  - intros ts -> Hk. destruct r as [M|Ms]; cbn in Hcall.
    + rewrite bool_decide_true in Hcall by done. by destruct Hcall.
    + rewrite bool_decide_true in Hcall by done. destruct Hcall as [[= Hlen] Hall].
      exists Ms. split; [done|]. split; [done|].
      eapply Forall_impl; [exact Hall|]. intros M [? ?]. unfold shape. congruence.
  - intros ts -> Hk. destruct r as [M|Ms]; cbn in Hcall.
    + destruct Hcall as (_ & ? & ?). exists M. split; [done|].
      unfold shape. congruence.
    + rewrite bool_decide_false in Hcall by lia. by destruct Hcall.
  - intros t0 ->. destruct r as [M|Ms]; cbn in Hcall.
    + destruct Hcall as (_ & ? & ?). exists M. split; [done|].
      unfold shape. congruence.
    + by destruct Hcall.
Qed.

Lemma matrix_callable_result_form_witness :
  matrix_callable_from_vector_trajectory 0%Z hold_first [0%Z] x_sample
    (UList [sym_a; sym_b; sym_c]) raveled_sample (Sequence [0%Z])
  = Ok (Single (mk_matrix 2 2 [1; 2; 2; 3]%Z)) ∧
  ∃ Ms,
    matrix_callable_from_vector_trajectory 0%Z sample_rows [0; 1]%Z x_two
      (UList [sym_a; sym_b]) raveled_row (Sequence [0; 1]%Z) = Ok (Stacked Ms) ∧
    length Ms = 2.
Proof.
  split; [reflexivity|].
  assert (matrix_callable_from_vector_trajectory 0%Z sample_rows [0; 1]%Z x_two
    (UList [sym_a; sym_b]) raveled_row (Sequence [0; 1]%Z)
    = Ok (Stacked [mk_matrix 1 2 [1; 3]%Z; mk_matrix 1 2 [2; 4]%Z])) as Hcall
    by reflexivity.
  destruct (proj1 (matrix_callable_result_form 0%Z sample_rows [0; 1]%Z x_two
    (UList [sym_a; sym_b]) raveled_row (Sequence [0; 1]%Z) _ Hcall)
    [0; 1]%Z eq_refl) as (Ms & HMs & Hlen & _); [cbn; lia|].
  exists Ms. split; [by rewrite Hcall, HMs|exact Hlen].
Defined.

(** ** Names that the symbol function rejects *)

Lemma pretty_N_go_nonempty (x : N) (s : string) :
  pretty_N_go x s = EmptyString → x = 0%N ∧ s = EmptyString.
Proof.
  revert s. induction (N.lt_wf_0 x) as [x _ IH]; intros s Hs.
  assert (x = 0 ∨ 0 < x)%N as [->|Hx] by lia.
  - by rewrite pretty_N_go_0 in Hs.
  - rewrite pretty_N_go_step in Hs by done.
    apply IH in Hs as [_ ?]; [done|by apply N.div_lt].
Qed.

Lemma pretty_nonempty (n : nat) : pretty n ≠ EmptyString.
Proof.
  unfold pretty, pretty_nat, pretty, pretty_N. case_decide; [done|].
  intros Hs. apply pretty_N_go_nonempty in Hs as [? _]. done.
Qed.

Lemma ends_plain_app (s t : string) :
  t ≠ EmptyString → ends_plain (s +:+ t) = ends_plain t.
Proof.
  intros Ht. induction s as [|ch s IH]; [done|].
  change (String ch s +:+ t) with (String ch (s +:+ t)).
  cbn [ends_plain]. rewrite IH. destruct (s +:+ t) eqn:Happ; [|done].
  by destruct s, t.
Qed.

Lemma ends_plain_one_symbol (s : string) :
  s ≠ EmptyString → one_symbol_name s = true → ends_plain s = true.
Proof.
  induction s as [|ch s IH]; [done|]. intros _ Hone.
  cbn [one_symbol_name] in Hone. apply andb_true_iff in Hone as [Hch Hs].
  destruct s as [|ch' s]; [done|]. by apply IH.
Qed.

(** The strings of the builder end with a digit. *)
Lemma ends_plain_element_name (name : string) (r c : nat) :
  ends_plain (element_name name r c) = true.
Proof.
  unfold element_name.
  rewrite !ends_plain_app; try apply pretty_nonempty.
  - apply ends_plain_one_symbol; [apply pretty_nonempty|].
    apply one_symbol_name_pretty.
  - destruct (pretty r) eqn:Hr; [by apply pretty_nonempty in Hr|done].
  - done.
Qed.

Lemma symbol_func_comma (name : string) (dynamic : bool) (kwass : kwargs)
    (r c : nat) :
  starts_with_comma name = true → assumptions_only kwass = true →
  (if dynamic then dynamicsymbols else symbols) (element_name name r c) kwass
  = Some (Raise (ValueError MissingSymbol)).
Proof.
  destruct name as [|ch name]; [done|]. intros Hcomma Hkw.
  apply bool_decide_eq_true in Hcomma.
  assert (∀ rest, one_symbol_name (String ch rest) = false) as Hone.
  { intros rest. cbn [one_symbol_name]. unfold special_char. rewrite Hcomma.
    rewrite (bool_decide_true (44 ∈ [44; 58; 92])) by repeat constructor.
    by rewrite orb_true_r. }
  pose proof (ends_plain_element_name (String ch name) r c) as Hend.
  pose proof (element_name_nonempty (String ch name) r c) as Hnonempty.
  unfold element_name in *.
  change (String ch name +:+ "_" +:+ pretty r +:+ pretty c)
    with (String ch (name +:+ "_" +:+ pretty r +:+ pretty c)) in *.
  destruct dynamic; unfold dynamicsymbols, symbols, symbol_function;
    rewrite Hkw, Hnonempty, Hone, Hend; cbn [negb orb andb starts_with_comma];
    by rewrite bool_decide_true.
Qed.

(** X15. A base name that starts with a comma: the first call of the
    symbol function is handed [,..._11] and raises the ValueError of a
    missing symbol between commas, which the builder lets through. With
    keyword arguments that only qualify the symbol, n, m > 0, and n = m
    when the diagonal or the symmetric flag is set, the builder ends with
    this error and returns no matrix. *)
Theorem construct_explicit_matrix_comma (name : string) (n m : nat)
    (symmetric diagonal dynamic : bool) (kwass : kwargs) :
  starts_with_comma name = true → assumptions_only kwass = true →
  0 < n → 0 < m → (diagonal || symmetric = true → n = m) →
  construct_explicit_matrix name n m symmetric diagonal dynamic kwass
  = Some (Raise (ValueError MissingSymbol)).
Proof.
  intros Hcomma Hkw Hn Hm Hflags. unfold construct_explicit_matrix.
  assert (bool_decide (n ≠ m) && (diagonal || symmetric) = false) as ->.
  { destruct (diagonal || symmetric); [|by rewrite andb_false_r].
    rewrite bool_decide_false; [done|]. intros Hne. by apply Hne, Hflags. }
  unfold range. rewrite !Nat.sub_0_r.
  destruct n as [|n]; [lia|]. destruct m as [|m]; [lia|].
  destruct diagonal; cbn [seq fmap list_fmap comprehension].
  - by rewrite symbol_func_comma.
  - by rewrite symbol_func_comma.
Qed.

Lemma construct_explicit_matrix_comma_witness :
  starts_with_comma ",x" = true ∧ assumptions_only [] = true ∧
  construct_explicit_matrix ",x" 2 3 false false true []
  = Some (Raise (ValueError MissingSymbol)).
Proof.
  split; [done|]. split; [done|].
  apply construct_explicit_matrix_comma; [done|done|lia|lia|done].
Defined.
